(** * kudu/util/debug-util.cc: stack traces of live threads

    A shallow embedding of [src/kudu/util/debug-util.cc] and the proofs of
    its documented behaviour.

    - Part I:   [StackTrace::StringifyToHex] and [StackTrace::ToHexString],
                as the sequence of stores they perform on the destination.
    - Part II:  [StackTrace::Symbolize], as the text it builds together with
                the addresses it hands to the symbol resolver.
    - Part III: [HandleStackTraceSignal] and [DumpThreadStack], as an
                interleaving of per-thread instruction steps over the global
                [g_comm], the dumper mutex and pending SIGUSR1 signals.
    - Part IV:  [ListThreads], as the loop over the names that the task
                directory holds. *)

From Stdlib Require Import ZArith List String Ascii Bool Lia.
From stdpp Require Import base list functions.
Import ListNotations.
Local Open Scope Z_scope.

(* ===================================================================== *)
(** * Part I: the stack trace and its hex encoding                        *)
(* ===================================================================== *)

(** [class StackTrace]: [int num_frames_; void* frames_[kMaxFrames];].
    Addresses are 64-bit values, kept as [Z]. *)
Record StackTrace : Type := mkStackTrace {
  num_frames_ : Z;
  frames_ : list Z
}.

(** [frames_[i]]. *)
Definition frame_at (t : StackTrace) (i : Z) : Z :=
  nth (Z.to_nat i) (frames_ t) 0.

(** The addresses a capture recorded: [frames_[0] .. frames_[num_frames_-1]]. *)
Definition captured (t : StackTrace) : list Z :=
  map (fun i => frame_at t (Z.of_nat i)) (seq 0 (Z.to_nat (num_frames_ t))).

(** [google::GetStackTrace(result, max_depth, skip_count)]: given the call
    stack of the running thread (innermost frame first), stores its frames
    after the first [skip_count], at most [max_depth] of them. *)
Definition google_GetStackTrace (callstack : list Z) (max_depth skip_count : Z)
  : list Z :=
  take (Z.to_nat max_depth) (drop (Z.to_nat skip_count) callstack).

(** [StackTrace::Collect(skip_frames)] (lines 204-206): the walker fills the
    head of [frames_]; the entries behind the returned count stay as they
    were. *)
Definition Collect (max_frames : Z) (callstack : list Z) (skip_frames : Z)
    (t : StackTrace) : StackTrace :=
  let got := google_GetStackTrace callstack max_frames skip_frames in
  {| num_frames_ := Z.of_nat (length got);
     frames_ := got ++ drop (length got) (frames_ t) |}.

(** The width of one hex entry. [kHexEntryLength] is declared in
    debug-util.h; [FastHex64ToBuffer] prints a 64-bit value, sixteen digits. *)
Definition kHexEntryLength : Z := 16.

Definition NUL : ascii := "000"%char.
Definition SPACE : ascii := " "%char.

(** A store of one byte, at an offset from the start of the destination
    [buf]. Pointers into the destination ([dst], [limit]) are kept as their
    offsets from [buf], which are integers: [limit] lies before [buf] when
    [size] is less than 18, and compares as such. *)
Abbreviation store := (Z * ascii)%type.

Definition hexdigits : list ascii :=
  list_ascii_of_string "0123456789abcdef".

Definition hex_nibble (value : Z) (j : nat) : ascii :=
  nth (Z.to_nat (Z.land (Z.shiftr value (4 * Z.of_nat j)) 15)) hexdigits "0"%char.

(** The sixteen digits of a 64-bit value, most significant first. *)
Definition hex64 (value : Z) : list ascii :=
  map (hex_nibble value) (rev (seq 0 (Z.to_nat kHexEntryLength))).

(** Consecutive stores of the bytes [bs], from offset [dst] upwards. *)
Fixpoint store_bytes (dst : Z) (bs : list ascii) : list store :=
  match bs with
  | [] => []
  | c :: bs' => (dst, c) :: store_bytes (dst + 1) bs'
  end.

(** The effect of one store on a destination of [length buf] bytes. *)
Definition poke (buf : list ascii) (w : store) : list ascii :=
  if 0 <=? w.1 then <[Z.to_nat w.1 := w.2]> buf else buf.

Definition run_stores (ws : list store) (buf : list ascii) : list ascii :=
  fold_left poke ws buf.

(** A store that stays inside a destination of [size] bytes. *)
Definition within (size : Z) (w : store) : Prop := 0 <= w.1 < size.

(** [std::string(buf)]: the bytes before the first terminator; [None] when
    the buffer holds no terminator. *)
Fixpoint c_str (buf : list ascii) : option (list ascii) :=
  match buf with
  | [] => None
  | c :: rest =>
      if Ascii.eqb c NUL then Some []
      else match c_str rest with
           | Some s => Some (c :: s)
           | None => None
           end
  end.

(** Tokens separated by one space. *)
Fixpoint join_tokens (toks : list (list ascii)) : list ascii :=
  match toks with
  | [] => []
  | [tok] => tok
  | tok :: rest => tok ++ SPACE :: join_tokens rest
  end.

(** The compact text of a list of addresses. *)
Definition hex_text (addrs : list Z) : list ascii :=
  join_tokens (map hex64 addrs).

(** The bytes the loop of [StringifyToHex] lays down for the tokens [toks],
    the first of them in iteration [i]: a space goes before every token but
    that of iteration 0. *)
Fixpoint loop_text (i : Z) (toks : list (list ascii)) : list ascii :=
  match toks with
  | [] => []
  | tok :: rest =>
      (if i =? 0 then [] else [SPACE]) ++ tok ++ loop_text (i + 1) rest
  end.

(** The concatenation of a list of pieces of text. *)
Definition cat (pieces : list string) : string :=
  fold_right String.append EmptyString pieces.

(** How often the character [c] occurs in [s]. *)
Fixpoint count_char (c : ascii) (s : string) : nat :=
  match s with
  | EmptyString => 0%nat
  | String c' s' => ((if Ascii.eqb c' c then 1 else 0) + count_char c s')%nat
  end.

Section Platform.

(** Whether [FastHex64ToBuffer] stores a terminator of its own behind the
    digits. The results below hold either way. *)
Variable helper_terminates : bool.

(** [StackTrace::kMaxFrames], the length of [frames_], declared in
    debug-util.h. *)
Variable kMaxFrames : positive.

(** [google::Symbolize(pc, out, out_size)] of glog: the symbol name on
    success, [None] when it returns false. *)
Variable google_Symbolize : Z -> option string.

(** printf's [%*p]: the text of a pointer in a field of the given width. *)
Variable printf_pointer : Z -> Z -> string.

(** Modelled from the spec: [FastHex64ToBuffer] of kudu/gutil/strings/numbers
    is not under src/. It encodes the value as one fixed-width hexadecimal
    token at [dst]. *)
Definition FastHex64ToBuffer (value : Z) (dst : Z) : list store :=
  store_bytes dst (hex64 value ++ (if helper_terminates then [NUL] else [])).

(** The [for] loop of [StackTrace::StringifyToHex] (lines 215-221), from the
    iteration with index [i] and cursor [dst] on. Returns the stores in
    program order and the cursor after the loop. *)
Fixpoint StringifyToHex_loop (fuel : nat) (t : StackTrace) (limit i dst : Z)
  : list store * Z :=
  match fuel with
  | O => ([], dst)
  | S fuel' =>
      if (i <? num_frames_ t) && (dst <? limit) then
        let sp := if i =? 0 then [] else [(dst, SPACE)] in
        let dst1 := if i =? 0 then dst else dst + 1 in
        let '(rest, dst') :=
          StringifyToHex_loop fuel' t limit (i + 1) (dst1 + kHexEntryLength) in
        (sp ++ FastHex64ToBuffer (frame_at t i) dst1 ++ rest, dst')
      else ([], dst)
  end.

(** [StackTrace::StringifyToHex(buf, size)] (lines 208-223): every store it
    performs, in program order. *)
Definition StringifyToHex (t : StackTrace) (size : Z) : list store :=
  let dst := 0 in
  let limit := dst + size - kHexEntryLength - 2 in
  let '(ws, dst') :=
    StringifyToHex_loop (Z.to_nat (num_frames_ t)) t limit 0 dst in
  ws ++ [(dst', NUL)].

(** [ToHexString] (lines 225-231). The local [buf] is not initialised: it
    holds whatever [junk] the stack held, cut or padded to the array's size. *)
Definition ToHexString (t : StackTrace) (junk : list ascii) : option string :=
  let size := Z.pos kMaxFrames * (kHexEntryLength + 1) + 1 in
  let buf := resize (Z.to_nat size) NUL junk in
  option_map string_of_list_ascii (c_str (run_stores (StringifyToHex t size) buf)).

(** [HexStackTraceToString(buf, size)] (lines 198-202), called on a thread
    whose call stack is [callstack]. *)
Definition HexStackTraceToString (callstack : list Z) (size : Z) : list store :=
  let trace := {| num_frames_ := 0; frames_ := repeat 0 (Pos.to_nat kMaxFrames) |} in
  let trace := Collect (Z.pos kMaxFrames) callstack 1 trace in
  StringifyToHex trace size.

(** [GetStackTraceHex()] (lines 192-196), with an uninitialised [buf]. *)
Definition GetStackTraceHex (callstack : list Z) (junk : list ascii)
  : option string :=
  let buf := resize 1024 NUL junk in
  option_map string_of_list_ascii
             (c_str (run_stores (HexStackTraceToString callstack 1024) buf)).

(* ===================================================================== *)
(** * Part II: symbolization                                              *)
(* ===================================================================== *)

Definition sizeof_void_ptr : Z := 8.

(** Line 39. *)
Definition kPrintfPointerFieldWidth : Z := 2 + 2 * sizeof_void_ptr.

(** [reinterpret_cast<char *>(pc) - 1], on 64-bit addresses. *)
Definition char_ptr_minus_1 (pc : Z) : Z := (pc - 1) mod 2 ^ 64.

Definition newline : string := String "010"%char EmptyString.

(** The text [StringAppendF(&ret, "    @ %*p  %s\n", width, pc, symbol)]
    appends. *)
Definition frame_line (pc : Z) (symbol : string) : string :=
  ("    @ " ++ printf_pointer kPrintfPointerFieldWidth pc ++ "  " ++ symbol
   ++ newline)%string.

(** The loop of [StackTrace::Symbolize] (lines 236-269), from index [i] on:
    [ret] is the text so far, [asked] the addresses handed to
    [google::Symbolize] so far. *)
Fixpoint Symbolize_loop (fuel : nat) (t : StackTrace) (i : Z)
    (ret : string) (asked : list Z) : string * list Z :=
  match fuel with
  | O => (ret, asked)
  | S fuel' =>
      if i <? num_frames_ t then
        let pc := frame_at t i in
        let symbol :=
          match google_Symbolize (char_ptr_minus_1 pc) with
          | Some tmp => tmp
          | None => "(unknown)"%string
          end in
        Symbolize_loop fuel' t (i + 1) (ret ++ frame_line pc symbol)%string
                       (asked ++ [char_ptr_minus_1 pc])
      else (ret, asked)
  end.

(** The symbol text of a frame: the resolver's answer for the address one
    byte before [pc], or the placeholder. *)
Definition symbol_for (pc : Z) : string :=
  match google_Symbolize (char_ptr_minus_1 pc) with
  | Some tmp => tmp
  | None => "(unknown)"%string
  end.

Definition Symbolize_traced (t : StackTrace) : string * list Z :=
  Symbolize_loop (Z.to_nat (num_frames_ t)) t 0 ""%string [].

(** [StackTrace::Symbolize()]. *)
Definition Symbolize (t : StackTrace) : string := fst (Symbolize_traced t).

(* ===================================================================== *)
(** * Part III: the signal handler and the dumper                         *)
(* ===================================================================== *)

(** [struct SignalCommunication] (lines 47-67) and the global [g_comm]. *)
Record SignalCommunication : Type := mkComm {
  stack : StackTrace;
  target_tid : Z;
  result_ready : Z;
  lock : Z
}.

Definition set_stack (v : StackTrace) (c : SignalCommunication) :=
  mkComm v (target_tid c) (result_ready c) (lock c).
Definition set_target_tid (v : Z) (c : SignalCommunication) :=
  mkComm (stack c) v (result_ready c) (lock c).
Definition set_result_ready (v : Z) (c : SignalCommunication) :=
  mkComm (stack c) (target_tid c) v (lock c).
Definition set_lock (v : Z) (c : SignalCommunication) :=
  mkComm (stack c) (target_tid c) (result_ready c) v.

(** What the operating system hands back to the instruction a thread
    executes: the value of [syscall(SYS_tgkill, ...)], the value of
    [signal(SIGUSR1, ...)] (the previous handler), and the call stack the
    stack walker sees. An instruction reads the field it asks for. *)
Record os_reply : Type := mkReply {
  tgkill_result : Z;
  signal_result : Z;
  callstack : list Z
}.

(** Program points of [HandleStackTraceSignal] (lines 85-100). *)
Inductive handler_pc : Type :=
| HLock       (* 86: SignalCommunication::Lock l, spinning on g_comm.lock *)
| HCheck      (* 93-96: my_tid = gettid; target_tid != my_tid ? return *)
| HCollect    (* 98: g_comm.stack.Collect(2) *)
| HPublish    (* 99: Release_Store(&g_comm.result_ready, 1) *)
| HUnlock.    (* ~Lock, at either return: Release_Store(&g_comm.lock, 0) *)

(** One instruction of the handler running on the thread whose id is [me].
    [None] as the next program point: the handler has returned. *)
Definition HandleStackTraceSignal_step (me : positive) (r : os_reply)
    (h : handler_pc) (c : SignalCommunication)
  : option handler_pc * SignalCommunication :=
  match h with
  | HLock =>
      if lock c =? 0 then (Some HCheck, set_lock 1 c) else (Some HLock, c)
  | HCheck =>
      let my_tid := Z.pos me in
      if negb (target_tid c =? my_tid) then (Some HUnlock, c)
      else (Some HCollect, c)
  | HCollect =>
      (Some HPublish,
       set_stack (Collect (Z.pos kMaxFrames) (callstack r) 2 (stack c)) c)
  | HPublish => (Some HUnlock, set_result_ready 1 c)
  | HUnlock => (None, set_lock 0 c)
  end.

(** The handler run on its own from program point [h], with no other
    thread in between. [None]: it is still spinning on the lock when the fuel
    is used up. *)
Fixpoint handler_alone (fuel : nat) (me : positive) (r : os_reply)
    (h : handler_pc) (c : SignalCommunication) : option SignalCommunication :=
  match fuel with
  | O => None
  | S fuel' =>
      match HandleStackTraceSignal_step me r h c with
      | (None, c') => Some c'
      | (Some h', c') => handler_alone fuel' me r h' c'
      end
  end.

(** [HandleStackTraceSignal(signum)] (lines 85-100) from entry to return,
    on the thread whose id is [me]. Five instructions at most when the lock is
    free. *)
Definition HandleStackTraceSignal (me : positive) (r : os_reply)
    (c : SignalCommunication) : option SignalCommunication :=
  handler_alone 5 me r HLock c.

(** Program points of [DumpThreadStack(tid)] (lines 104-164), with the
    locals that are live there: [tid], the loop counter [i], and [ret]. *)
Inductive dumper_pc : Type :=
| DIdle                                    (* not in the function *)
| DMutex (tid : Z)                         (* 108: SpinLockHolder h *)
| DInstall (tid : Z)                       (* 112-116 *)
| DLockA (tid : Z)                         (* 121 *)
| DAssertIdle (tid : Z)                    (* 122: CHECK_EQ(0, target_tid) *)
| DSetTarget (tid : Z)                     (* 123 *)
| DUnlockA (tid : Z)                       (* 124 *)
| DKill (tid : Z)                          (* 129 *)
| DLockB (tid : Z)                         (* 131 *)
| DClearTarget (tid : Z)                   (* 132 *)
| DUnlockB (tid : Z)                       (* 133 *)
| DReturnUndelivered (tid : Z)             (* 134 *)
| DPoll (tid : Z) (i : Z)                  (* 145-146 *)
| DSleep (tid : Z) (i : Z)                 (* 147 *)
| DLockC (tid : Z)                         (* 151 *)
| DAssertTarget (tid : Z)                  (* 152: CHECK_EQ(tid, target_tid) *)
| DReadReady (tid : Z)                     (* 154-158 *)
| DResetTarget (tid : Z) (ret : string)    (* 160 *)
| DResetReady (tid : Z) (ret : string)     (* 161 *)
| DUnlockC (tid : Z) (ret : string)        (* 162 *)
| DReturn (tid : Z) (ret : string)         (* 163 *)
| DReturned (ret : string).                (* back in the caller, with the value *)

(** What ends the process: a failed CHECK of [DumpThreadStack], which aborts
    it, or a SIGUSR1 delivered while the signal still has its default
    disposition. *)
Inductive process_end : Type :=
| InstallFailed      (* 114: PCHECK(signal(...) == 0) *)
| SessionActive      (* 122: CHECK_EQ(0, g_comm.target_tid) *)
| TargetChanged      (* 152: CHECK_EQ(tid, g_comm.target_tid) *)
| UnhandledSignal.   (* SIGUSR1 before line 114 has installed the handler *)

(** A thread: where it is in [DumpThreadStack], and the handler that
    interrupted it, if one is running. *)
Record thread : Type := mkThread {
  dumper : dumper_pc;
  handler : option handler_pc
}.

(** The process. Threads are named by their OS thread id. *)
Record process : Type := mkProcess {
  g_comm : SignalCommunication;
  dumper_thread_lock_ : bool;      (* 107: held or free *)
  initialized : bool;              (* 112 *)
  pending : positive -> bool;      (* SIGUSR1 sent to a thread, not yet delivered *)
  threads : positive -> thread;
  fatal : option process_end       (* the process has ended *)
}.

Definition set_comm (c : SignalCommunication) (p : process) :=
  mkProcess c (dumper_thread_lock_ p) (initialized p) (pending p) (threads p) (fatal p).
Definition set_mutex (b : bool) (p : process) :=
  mkProcess (g_comm p) b (initialized p) (pending p) (threads p) (fatal p).
Definition set_initialized (b : bool) (p : process) :=
  mkProcess (g_comm p) (dumper_thread_lock_ p) b (pending p) (threads p) (fatal p).
Definition set_pending (me : positive) (b : bool) (p : process) :=
  mkProcess (g_comm p) (dumper_thread_lock_ p) (initialized p)
            (<[me := b]> (pending p)) (threads p) (fatal p).
Definition set_thread (me : positive) (th : thread) (p : process) :=
  mkProcess (g_comm p) (dumper_thread_lock_ p) (initialized p) (pending p)
            (<[me := th]> (threads p)) (fatal p).
Definition crash (f : process_end) (p : process) :=
  mkProcess (g_comm p) (dumper_thread_lock_ p) (initialized p) (pending p)
            (threads p) (Some f).

Definition undelivered_text : string :=
  "(unable to deliver signal: process may have exited)".
Definition no_response_text : string :=
  "(thread did not respond: maybe it is blocking signals)".

(** [tgkill] succeeded: SIGUSR1 is pending for the thread with that id. *)
Definition post_signal (tid : Z) (p : process) : process :=
  match tid with
  | Z.pos target => set_pending target true p
  | _ => p
  end.

(** One instruction of [DumpThreadStack]: the next program point and the
    process after it. Spinning on a held lock leaves both as they are. *)
Definition DumpThreadStack_step (r : os_reply) (pc : dumper_pc) (p : process)
  : dumper_pc * process :=
  let c := g_comm p in
  match pc with
  | DIdle => (DIdle, p)
  | DMutex tid =>
      if dumper_thread_lock_ p then (DMutex tid, p)
      else (DInstall tid, set_mutex true p)
  | DInstall tid =>
      if initialized p then (DLockA tid, p)
      else if signal_result r =? 0 then (DLockA tid, set_initialized true p)
      else (DInstall tid, crash InstallFailed p)
  | DLockA tid =>
      if lock c =? 0 then (DAssertIdle tid, set_comm (set_lock 1 c) p)
      else (DLockA tid, p)
  | DAssertIdle tid =>
      if 0 =? target_tid c then (DSetTarget tid, p)
      else (DAssertIdle tid, crash SessionActive p)
  | DSetTarget tid => (DUnlockA tid, set_comm (set_target_tid tid c) p)
  | DUnlockA tid => (DKill tid, set_comm (set_lock 0 c) p)
  | DKill tid =>
      if negb (tgkill_result r =? 0) then (DLockB tid, p)
      else (DPoll tid 0, post_signal tid p)
  | DLockB tid =>
      if lock c =? 0 then (DClearTarget tid, set_comm (set_lock 1 c) p)
      else (DLockB tid, p)
  | DClearTarget tid => (DUnlockB tid, set_comm (set_target_tid 0 c) p)
  | DUnlockB tid => (DReturnUndelivered tid, set_comm (set_lock 0 c) p)
  | DReturnUndelivered tid => (DReturned undelivered_text, set_mutex false p)
  | DPoll tid i =>
      if negb (result_ready c =? 0) then (DLockC tid, p)
      else if i <? 100 then (DSleep tid (i + 1), p)
      else (DLockC tid, p)
  | DSleep tid i => (DPoll tid i, p)
  | DLockC tid =>
      if lock c =? 0 then (DAssertTarget tid, set_comm (set_lock 1 c) p)
      else (DLockC tid, p)
  | DAssertTarget tid =>
      if tid =? target_tid c then (DReadReady tid, p)
      else (DAssertTarget tid, crash TargetChanged p)
  | DReadReady tid =>
      let ret := if result_ready c =? 0 then no_response_text
                 else Symbolize (stack c) in
      (DResetTarget tid ret, p)
  | DResetTarget tid ret => (DResetReady tid ret, set_comm (set_target_tid 0 c) p)
  | DResetReady tid ret => (DUnlockC tid ret, set_comm (set_result_ready 0 c) p)
  | DUnlockC tid ret => (DReturn tid ret, set_comm (set_lock 0 c) p)
  | DReturn tid ret => (DReturned ret, set_mutex false p)
  | DReturned ret => (DReturned ret, p)
  end.

(** What can happen next in the process. A thread that a handler has
    interrupted executes the handler's instructions, and those of
    [DumpThreadStack] again once the handler has returned. *)
Inductive action : Type :=
| Call (me : positive) (tid : Z)      (* thread [me] calls DumpThreadStack(tid) *)
| Exec (me : positive) (r : os_reply) (* thread [me] executes its next instruction *)
| Deliver (me : positive)             (* a pending SIGUSR1 interrupts thread [me] *)
| Raise (me : positive).              (* SIGUSR1 sent to [me] from elsewhere *)

Definition step (a : action) (p : process) : process :=
  match fatal p with
  | Some _ => p
  | None =>
      match a with
      | Call me tid =>
          let th := threads p me in
          match handler th, dumper th with
          | None, DIdle | None, DReturned _ =>
              set_thread me (mkThread (DMutex tid) None) p
          | _, _ => p
          end
      | Exec me r =>
          let th := threads p me in
          match handler th with
          | Some h =>
              let '(h', c') := HandleStackTraceSignal_step me r h (g_comm p) in
              set_thread me (mkThread (dumper th) h') (set_comm c' p)
          | None =>
              let '(pc', p') := DumpThreadStack_step r (dumper th) p in
              set_thread me (mkThread pc' None) p'
          end
      | Deliver me =>
          let th := threads p me in
          match handler th with
          | None =>
              if pending p me then
                if initialized p
                then set_thread me (mkThread (dumper th) (Some HLock))
                                (set_pending me false p)
                else crash UnhandledSignal p
              else p
          | Some _ => p     (* SIGUSR1 is blocked while its handler runs *)
          end
      | Raise me => set_pending me true p
      end
  end.

(** The process after a schedule, first action first. *)
Definition run (sched : list action) (p : process) : process :=
  fold_left (fun q a => step a q) sched p.

(** The process at start-up: [g_comm] and the statics are zero. *)
Definition boot : process :=
  {| g_comm := {| stack := {| num_frames_ := 0;
                              frames_ := repeat 0 (Pos.to_nat kMaxFrames) |};
                  target_tid := 0; result_ready := 0; lock := 0 |};
     dumper_thread_lock_ := false;
     initialized := false;
     pending := fun _ => false;
     threads := fun _ => mkThread DIdle None;
     fatal := None |}.

(** ** The protocol's bookkeeping

    Which program points sit between taking and releasing a lock, and what
    [g_comm.target_tid] holds while a dumper is at a program point. *)

(** Inside [SpinLockHolder h(&dumper_thread_lock_)]. *)
Definition in_mutex (pc : dumper_pc) : bool :=
  match pc with
  | DIdle | DMutex _ | DReturned _ => false
  | _ => true
  end.

(** Inside one of the three [SignalCommunication::Lock l] blocks of
    [DumpThreadStack]. *)
Definition dumper_locks (pc : dumper_pc) : bool :=
  match pc with
  | DAssertIdle _ | DSetTarget _ | DUnlockA _
  | DClearTarget _ | DUnlockB _
  | DAssertTarget _ | DReadReady _ | DResetTarget _ _ | DResetReady _ _
  | DUnlockC _ _ => true
  | _ => false
  end.

(** Inside the handler's [SignalCommunication::Lock l]. *)
Definition handler_locks (h : option handler_pc) : bool :=
  match h with
  | Some HCheck | Some HCollect | Some HPublish | Some HUnlock => true
  | Some HLock | None => false
  end.

(** The two activations a thread can have. *)
Inductive agent : Type :=
| Dumper (me : positive)
| Handler (me : positive).

Definition holds_lock (p : process) (a : agent) : bool :=
  match a with
  | Dumper me => dumper_locks (dumper (threads p me))
  | Handler me => handler_locks (handler (threads p me))
  end.

(** The value of [g_comm.target_tid] while a dumper is at [pc]. *)
Definition expects_target (pc : dumper_pc) : option Z :=
  match pc with
  | DIdle | DMutex _ | DReturned _ => None
  | DInstall _ | DLockA _ | DAssertIdle _ | DSetTarget _ => Some 0
  | DUnlockA tid | DKill tid | DLockB tid | DClearTarget tid
  | DPoll tid _ | DSleep tid _ | DLockC tid | DAssertTarget tid
  | DReadReady tid | DResetTarget tid _ => Some tid
  | DUnlockB _ | DReturnUndelivered _
  | DResetReady _ _ | DUnlockC _ _ | DReturn _ _ => Some 0
  end.

(** Past lines 112-116. *)
Definition past_install (pc : dumper_pc) : bool :=
  match pc with
  | DIdle | DMutex _ | DInstall _ | DReturned _ => false
  | _ => true
  end.

(** The handler is between its check of [target_tid] and its unlock, on the
    branch that collects. *)
Definition handler_collects (h : option handler_pc) : bool :=
  match h with
  | Some HCollect | Some HPublish => true
  | _ => false
  end.

(** Behind the resets of lines 160-161, up to the return of line 163. *)
Definition past_resets (pc : dumper_pc) : bool :=
  match pc with
  | DUnlockC _ _ | DReturn _ _ => true
  | _ => false
  end.

(** An upper bound on the instructions a call still has to execute. *)
Definition steps_left (pc : dumper_pc) : nat :=
  match pc with
  | DIdle | DReturned _ => 0
  | DReturn _ _ | DReturnUndelivered _ => 1
  | DUnlockC _ _ | DUnlockB _ => 2
  | DResetReady _ _ | DClearTarget _ => 3
  | DResetTarget _ _ | DLockB _ => 4
  | DReadReady _ => 5
  | DAssertTarget _ => 6
  | DLockC _ => 7
  | DPoll _ i => 8 + 2 * Z.to_nat (100 - i)
  | DSleep _ i => 9 + 2 * Z.to_nat (100 - i)
  | DKill _ => 209
  | DUnlockA _ => 210
  | DSetTarget _ => 211
  | DAssertIdle _ => 212
  | DLockA _ => 213
  | DInstall _ => 214
  | DMutex _ => 215
  end%nat.

(** The instruction at [pc] spins: it wants a lock that is held. *)
Definition waits (pc : dumper_pc) (p : process) : Prop :=
  match pc with
  | DMutex _ => dumper_thread_lock_ p = true
  | DLockA _ | DLockB _ | DLockC _ => lock (g_comm p) <> 0
  | _ => False
  end.

(** What holds of the process at every moment (see [coherent_run]). *)
Record coherent (p : process) : Prop := {
  lock_bit : forall a, holds_lock p a = true -> lock (g_comm p) = 1;
  lock_excludes : forall a b,
    holds_lock p a = true -> holds_lock p b = true -> a = b;
  mutex_bit : forall me,
    in_mutex (dumper (threads p me)) = true -> dumper_thread_lock_ p = true;
  mutex_excludes : forall me me',
    in_mutex (dumper (threads p me)) = true ->
    in_mutex (dumper (threads p me')) = true -> me = me';
  target_idle : dumper_thread_lock_ p = false -> target_tid (g_comm p) = 0;
  target_known : forall me v,
    expects_target (dumper (threads p me)) = Some v -> target_tid (g_comm p) = v;
  handler_installed : forall me,
    past_install (dumper (threads p me)) = true \/ handler (threads p me) <> None ->
    initialized p = true;
  handler_matches : forall me,
    handler_collects (handler (threads p me)) = true ->
    target_tid (g_comm p) = Z.pos me;
  checks_pass : fatal p <> Some SessionActive /\ fatal p <> Some TargetChanged
}.

(** The schedule has thread [me] call [DumpThreadStack]. *)
Definition calls (me : positive) (sched : list action) : bool :=
  existsb (fun a => match a with
                    | Call me' _ => Pos.eqb me' me
                    | _ => false
                    end) sched.

(** From the statement after line 158 on, a call whose [ret] is [text]. *)
Definition returning (tid : Z) (text : string) (pc : dumper_pc) : Prop :=
  pc = DResetTarget tid text \/ pc = DResetReady tid text \/
  pc = DUnlockC tid text \/ pc = DReturn tid text \/ pc = DReturned text.

(** Lines 130-134 of a call, and its return with the text of line 134. *)
Definition giving_up (tid : Z) (pc : dumper_pc) : Prop :=
  pc = DLockB tid \/ pc = DClearTarget tid \/ pc = DUnlockB tid \/
  pc = DReturnUndelivered tid \/ pc = DReturned undelivered_text.

(** ** Room in a destination, well-formed traces, quiet processes *)

(** The cursor [dst] at the start of iteration [i] of the loop of
    [StringifyToHex], as an offset from [buf]: sixteen digits for every
    earlier token, and a space before each of them but the first. *)
Definition cursor_at (i : Z) : Z :=
  if i =? 0 then 0 else i * (kHexEntryLength + 1) - 1.

(** How many iterations the condition [dst < limit] of line 215 lets
    through, with [limit = buf + size - kHexEntryLength - 2]. *)
Definition tokens_that_fit (size : Z) : nat :=
  if size <=? kHexEntryLength + 2 then 0%nat
  else Z.to_nat ((size - kHexEntryLength - 2) / (kHexEntryLength + 1) + 1).

(** The count of a trace is within its array, which has [kMaxFrames]
    entries. *)
Definition well_formed (t : StackTrace) : Prop :=
  0 <= num_frames_ t <= Z.pos kMaxFrames /\
  length (frames_ t) = Pos.to_nat kMaxFrames.

(** No session is under way: the dumper mutex and the signal-safe lock are
    free and [g_comm] holds neither a target nor a result. *)
Definition quiet (p : process) : Prop :=
  fatal p = None /\ dumper_thread_lock_ p = false /\ lock (g_comm p) = 0 /\
  target_tid (g_comm p) = 0 /\ result_ready (g_comm p) = 0.

(** The dumper mutex and the signal-safe lock are free and no target is
    set. [g_comm.result_ready] can be 1 all the same: the exit of lines
    130-134 does not reset it. *)
Definition idle (p : process) : Prop :=
  fatal p = None /\ dumper_thread_lock_ p = false /\ lock (g_comm p) = 0 /\
  target_tid (g_comm p) = 0.

(** The thread is outside [DumpThreadStack]. *)
Definition not_calling (pc : dumper_pc) : bool :=
  match pc with
  | DIdle | DReturned _ => true
  | _ => false
  end.

(** Thread [me] executes [n] instructions in a row, the operating system
    answering [r] to each. *)
Definition solo (me : positive) (r : os_reply) (n : nat) : list action :=
  repeat (Exec me r) n.

(** The loop counter [i] of lines 144-148 is between 0 and 100, and at
    least 1 during a sleep. *)
Definition poll_count_ok (pc : dumper_pc) : Prop :=
  match pc with
  | DPoll _ i => 0 <= i <= 100
  | DSleep _ i => 1 <= i <= 100
  | _ => True
  end.

(** What line 98 collects when the action [a] is executed in [p]: the
    thread whose handler stands at [g_comm.stack.Collect(2)], and the call
    stack the stack walker sees there. Nothing for any other action. *)
Definition collects (a : action) (p : process) : list (positive * list Z) :=
  match a with
  | Exec me r =>
      match fatal p, handler (threads p me) with
      | None, Some HCollect => [(me, callstack r)]
      | _, _ => []
      end
  | _ => []
  end.

(** The executions of line 98 in the course of a schedule, in order. *)
Fixpoint collections (sched : list action) (p : process)
  : list (positive * list Z) :=
  match sched with
  | [] => []
  | a :: rest => collects a p ++ collections rest (step a p)
  end.

(** The trace is what one of the executions of line 98 listed in [done]
    stored. *)
Definition collected_in (done : list (positive * list Z)) (t : StackTrace)
  : Prop :=
  exists x callstack t0,
    In (x, callstack) done /\ t = Collect (Z.pos kMaxFrames) callstack 2 t0.

(** The texts [DumpThreadStack] can return: that of line 134, that of line
    155, or [Symbolize] of what one of the executions of line 98 listed in
    [done] stored: the lines of the frames of that call stack, without its two
    innermost frames and cut to [kMaxFrames]. *)
Definition result_of_a_dump (done : list (positive * list Z)) (ret : string)
  : Prop :=
  ret = undelivered_text \/ ret = no_response_text \/
  exists x callstack,
    In (x, callstack) done /\
    (forall t0, ret = Symbolize (Collect (Z.pos kMaxFrames) callstack 2 t0)) /\
    ret = cat (map (fun pc => frame_line pc (symbol_for pc))
                   (take (Pos.to_nat kMaxFrames) (drop 2 callstack))).

(** The local [ret] of a call, where it is set. *)
Definition carried (pc : dumper_pc) : option string :=
  match pc with
  | DResetTarget _ ret | DResetReady _ ret | DUnlockC _ ret | DReturn _ ret
  | DReturned ret => Some ret
  | _ => None
  end.

(** What holds of the results at every moment, [done] being the executions
    of line 98 so far. *)
Definition results_come_from (done : list (positive * list Z)) (p : process)
  : Prop :=
  (result_ready (g_comm p) <> 0 -> collected_in done (stack (g_comm p))) /\
  (forall x, handler (threads p x) = Some HPublish ->
             collected_in done (stack (g_comm p))) /\
  (forall x ret, carried (dumper (threads p x)) = Some ret ->
                 result_of_a_dump done ret).

(* ===================================================================== *)
(** * Part IV: the threads of the process                                 *)
(* ===================================================================== *)

(** [kudu::Status], as far as [ListThreads] builds one:
    [Status::OK()] and [Status::IOError(msg, msg2, posix_code)]. *)
Inductive Status : Type :=
| OK
| IOError (msg msg2 : string) (posix_code : Z).

(** [d->d_name[0] != '.']. The first character of an empty name is its
    terminator. *)
Definition starts_with_dot (d_name : string) : bool :=
  match d_name with
  | String c _ => Ascii.eqb c "."%char
  | EmptyString => false
  end.

(** [tids->push_back(tid)] converts the [uint32_t] to [pid_t], a signed
    32-bit integer. *)
Definition uint32_to_pid_t (v : Z) : Z := (v + 2 ^ 31) mod 2 ^ 32 - 2 ^ 31.

Definition bad_tid_warning (d_name : string) : string :=
  ("bad tid found in procfs: " ++ d_name)%string.

Section Threads.

(** [safe_strtou32] of kudu/gutil/strings/numbers, not under src/: the
    parsed value when the whole name is a number that fits 32 bits. *)
Variable safe_strtou32 : string -> option Z.

(** [ErrnoToString] of kudu/util/errno, not under src/. *)
Variable ErrnoToString : Z -> string.

(** The [while] loop of [ListThreads] (lines 172-181) over the names
    [readdir] returns, in the order it returns them: the vector and the
    warnings logged so far are threaded through. *)
Fixpoint ListThreads_loop (entries : list string) (tids : list Z)
    (warnings : list string) : list Z * list string :=
  match entries with
  | [] => (tids, warnings)
  | d_name :: rest =>
      if negb (starts_with_dot d_name) then
        match safe_strtou32 d_name with
        | None =>
            ListThreads_loop rest tids (warnings ++ [bad_tid_warning d_name])
        | Some tid =>
            ListThreads_loop rest (tids ++ [uint32_to_pid_t tid]) warnings
        end
      else ListThreads_loop rest tids warnings
  end.

(** [ListThreads(tids)] (lines 166-184). [dir] is what [opendir] gives:
    [None] when it fails, leaving [errno], and otherwise the names in the
    directory. Returns the status, the vector, and the warnings logged. *)
Definition ListThreads (dir : option (list string)) (errno : Z) (tids : list Z)
  : Status * list Z * list string :=
  match dir with
  | None =>
      (IOError "failed to open task dir" (ErrnoToString errno) errno, tids, [])
  | Some entries =>
      let '(tids', warnings) := ListThreads_loop entries tids [] in
      (OK, tids', warnings)
  end.

(** The thread id a directory entry contributes, if any. *)
Definition tid_of_entry (d_name : string) : option Z :=
  if starts_with_dot d_name then None
  else option_map uint32_to_pid_t (safe_strtou32 d_name).

(** The warning a directory entry causes, if any. *)
Definition warning_of_entry (d_name : string) : option string :=
  if starts_with_dot d_name then None
  else match safe_strtou32 d_name with
       | None => Some (bad_tid_warning d_name)
       | Some _ => None
       end.

End Threads.

(* ===================================================================== *)
(** * Facts about Part I                                                  *)
(* ===================================================================== *)

Lemma length_poke buf w : length (poke buf w) = length buf.
Proof.
  unfold poke. destruct (0 <=? w.1); [apply length_insert | reflexivity].
Qed.

Lemma length_run_stores ws : forall buf, length (run_stores ws buf) = length buf.
Proof.
  induction ws as [|w ws IH]; intros buf; simpl; [reflexivity|].
  unfold run_stores in IH. rewrite IH. apply length_poke.
Qed.

Lemma run_stores_app ws1 ws2 buf :
  run_stores (ws1 ++ ws2) buf = run_stores ws2 (run_stores ws1 buf).
Proof. unfold run_stores. apply fold_left_app. Qed.

(** Stores at or above an offset leave the bytes below it alone. *)
Lemma take_poke_above (n : nat) buf w :
  Z.of_nat n <= w.1 -> take n (poke buf w) = take n buf.
Proof.
  intros Hle. unfold poke. destruct (0 <=? w.1) eqn:E; [|reflexivity].
  apply take_insert_ge. lia.
Qed.

Lemma take_run_stores_above (n : nat) ws : forall buf,
  Forall (fun w => Z.of_nat n <= w.1) ws ->
  take n (run_stores ws buf) = take n buf.
Proof.
  induction ws as [|w ws IH]; intros buf Hall; simpl; [reflexivity|].
  inversion Hall as [|? ? Hw Hws]; subst.
  unfold run_stores in IH. rewrite IH by assumption.
  apply take_poke_above; assumption.
Qed.

Lemma store_bytes_range bs : forall dst,
  Forall (fun w => dst <= w.1 < dst + Z.of_nat (length bs)) (store_bytes dst bs).
Proof.
  induction bs as [|c bs IH]; intros dst; simpl; constructor.
  - simpl. lia.
  - eapply Forall_impl; [|apply IH]. simpl. intros w Hw. lia.
Qed.

(** Storing [bs] at [dst], inside the destination, puts [bs] right behind
    the first [dst] bytes. *)
Lemma take_store_bytes bs : forall (d : nat) buf,
  (d + length bs <= length buf)%nat ->
  take (d + length bs) (run_stores (store_bytes (Z.of_nat d) bs) buf)
  = take d buf ++ bs.
Proof.
  induction bs as [|c bs IH]; intros d buf Hlen; simpl.
  - rewrite Nat.add_0_r, app_nil_r. reflexivity.
  - simpl in Hlen.
    replace (Z.of_nat d + 1) with (Z.of_nat (S d)) by lia.
    replace (d + S (length bs))%nat with (S d + length bs)%nat by lia.
    rewrite IH by (rewrite length_poke; lia).
    unfold poke. simpl. rewrite Nat2Z.id.
    destruct (0 <=? Z.of_nat d) eqn:E; [|lia].
    rewrite (take_S_r _ d c).
    + rewrite take_insert_ge by lia. rewrite <- app_assoc. reflexivity.
    + apply list_lookup_insert_eq. lia.
Qed.

Lemma take_store_bytes_Z bs (dst : Z) buf :
  0 <= dst -> dst + Z.of_nat (length bs) <= Z.of_nat (length buf) ->
  take (Z.to_nat (dst + Z.of_nat (length bs)))
       (run_stores (store_bytes dst bs) buf)
  = take (Z.to_nat dst) buf ++ bs.
Proof.
  intros Hd Hlen.
  replace (Z.to_nat (dst + Z.of_nat (length bs)))
    with (Z.to_nat dst + length bs)%nat by lia.
  pose proof (take_store_bytes bs (Z.to_nat dst) buf ltac:(lia)) as H.
  rewrite Z2Nat.id in H by assumption. exact H.
Qed.

Lemma store_bytes_app bs1 : forall bs2 dst,
  store_bytes dst (bs1 ++ bs2)
  = store_bytes dst bs1 ++ store_bytes (dst + Z.of_nat (length bs1)) bs2.
Proof.
  induction bs1 as [|c bs1 IH]; intros bs2 dst; simpl.
  - f_equal. lia.
  - rewrite IH. do 3 f_equal. lia.
Qed.

Lemma length_hex64 v : length (hex64 v) = Z.to_nat kHexEntryLength.
Proof. unfold hex64. rewrite length_map, length_rev, length_seq. reflexivity. Qed.

(** The frames the loop reads in [k] iterations from index [i]. *)
Lemma captured_from_step t i k :
  map (fun j => frame_at t (i + Z.of_nat j)) (seq 0 (S k))
  = frame_at t i :: map (fun j => frame_at t (i + 1 + Z.of_nat j)) (seq 0 k).
Proof.
  simpl. f_equal; [f_equal; lia|].
  rewrite <- seq_shift, map_map. apply map_ext. intros j. f_equal. lia.
Qed.

(** What the loop of [StringifyToHex] does, from any iteration on: it runs
    some number [k] of whole iterations, stores between the cursor it starts
    with and the cursor it ends with, and lays down the tokens of the [k]
    frames it visited. *)
Lemma StringifyToHex_loop_effect fuel : forall t limit i dst ws dst',
  0 <= i -> 0 <= dst ->
  StringifyToHex_loop fuel t limit i dst = (ws, dst') ->
  exists k : nat,
    (k <= fuel)%nat /\
    (k <> 0%nat ->
       i + Z.of_nat k <= num_frames_ t /\ dst < limit
       /\ dst' <= limit + kHexEntryLength) /\
    (k = 0%nat -> dst' = dst /\ ws = []) /\
    dst <= dst' /\
    Forall (fun w => dst <= w.1 <= dst') ws /\
    forall buf, dst' < Z.of_nat (length buf) ->
      take (Z.to_nat dst') (run_stores ws buf)
      = take (Z.to_nat dst) buf
        ++ loop_text i (map hex64 (map (fun j => frame_at t (i + Z.of_nat j)) (seq 0 k))).
Proof.
  induction fuel as [|fuel IH]; intros t limit i dst ws dst' Hi Hdst Hrun.
  - cbn [StringifyToHex_loop] in Hrun. inversion Hrun; subst. exists 0%nat.
    repeat split; try lia; try constructor.
    intros buf _. simpl. rewrite app_nil_r. reflexivity.
  - cbn [StringifyToHex_loop] in Hrun.
    destruct ((i <? num_frames_ t) && (dst <? limit)) eqn:Hcond.
    + apply andb_true_iff in Hcond as [Hlt Hroom].
      apply Z.ltb_lt in Hlt. apply Z.ltb_lt in Hroom.
      set (sep := if i =? 0 then [] else [SPACE]) in *.
      set (dst1 := if i =? 0 then dst else dst + 1) in *.
      assert (Hsp : (if i =? 0 then [] else [(dst, SPACE)]) = store_bytes dst sep)
        by (unfold sep; destruct (i =? 0); reflexivity).
      assert (Hdst1 : dst1 = dst + Z.of_nat (length sep))
        by (unfold sep, dst1; destruct (i =? 0); simpl; lia).
      assert (Hsep : (length sep <= 1)%nat)
        by (unfold sep; destruct (i =? 0); simpl; lia).
      destruct (StringifyToHex_loop fuel t limit (i + 1) (dst1 + kHexEntryLength))
        as [rest dst2] eqn:Hrest.
      pose proof (f_equal fst Hrun) as Hws. pose proof (f_equal snd Hrun) as Hd.
      cbn [fst snd] in Hws, Hd. subst ws dst2. clear Hrun.
      unfold kHexEntryLength in *.
      assert (Hd2 : 0 <= dst1 + 16) by lia.
      assert (Hi1 : 0 <= i + 1) by lia.
      destruct (IH _ _ _ _ _ _ Hi1 Hd2 Hrest)
        as (k & Hk & Hpos & Hzero & Hmono & Hrange & Htext).
      exists (S k). split; [lia|]. split.
      { intros _. destruct k as [|k'].
        - destruct (Hzero eq_refl) as [-> _]. lia.
        - destruct (Hpos ltac:(lia)) as (? & ? & ?). lia. }
      split; [discriminate|]. split; [lia|].
      set (tail := if helper_terminates then [NUL] else []) in *.
      assert (Htail : (length tail <= 1)%nat)
        by (unfold tail; destruct helper_terminates; simpl; lia).
      assert (Hstores :
        (if i =? 0 then [] else [(dst, SPACE)]) ++ FastHex64ToBuffer (frame_at t i) dst1
        = store_bytes dst (sep ++ hex64 (frame_at t i))
          ++ store_bytes (dst1 + 16) tail).
      { rewrite Hsp. unfold FastHex64ToBuffer. fold tail.
        rewrite !store_bytes_app, length_hex64, <- Hdst1, <- app_assoc.
        reflexivity. }
      rewrite app_assoc, Hstores. split.
      { rewrite !Forall_app. repeat split.
        - eapply Forall_impl; [|apply store_bytes_range].
          simpl. intros w Hw. rewrite length_app, length_hex64 in Hw.
          unfold kHexEntryLength in Hw. lia.
        - eapply Forall_impl; [|apply store_bytes_range].
          simpl. intros w Hw. lia.
        - eapply Forall_impl; [|exact Hrange]. simpl. intros w Hw. lia. }
      intros buf Hbuf.
      rewrite !run_stores_app, Htext by (rewrite !length_run_stores; exact Hbuf).
      rewrite take_run_stores_above.
      2:{ eapply Forall_impl; [|apply store_bytes_range].
          simpl. intros w Hw. lia. }
      replace (dst1 + 16) with (dst + Z.of_nat (length (sep ++ hex64 (frame_at t i))))
        by (rewrite length_app, length_hex64; unfold kHexEntryLength; lia).
      rewrite take_store_bytes_Z.
      2: lia.
      2:{ rewrite length_app, length_hex64. unfold kHexEntryLength. lia. }
      rewrite captured_from_step. simpl loop_text. fold sep.
      rewrite <- !app_assoc. reflexivity.
    + inversion Hrun; subst. exists 0%nat.
      repeat split; try lia; try constructor.
      intros buf _. simpl. rewrite app_nil_r. reflexivity.
Qed.

(** The fuel [StringifyToHex] gives its loop is enough: the loop has ended,
    its condition false, before the fuel is used up. *)
Lemma StringifyToHex_loop_fuel fuel : forall extra t limit i dst,
  0 <= i -> (Z.to_nat (num_frames_ t - i) <= fuel)%nat ->
  StringifyToHex_loop (fuel + extra) t limit i dst
  = StringifyToHex_loop fuel t limit i dst.
Proof.
  induction fuel as [|fuel IH]; intros extra t limit i dst Hi Hfuel.
  - destruct extra as [|extra]; [reflexivity|]. cbn [Nat.add StringifyToHex_loop].
    replace (i <? num_frames_ t) with false by (symmetry; apply Z.ltb_ge; lia).
    reflexivity.
  - cbn [Nat.add StringifyToHex_loop].
    destruct ((i <? num_frames_ t) && (dst <? limit)); [|reflexivity].
    rewrite IH by lia. reflexivity.
Qed.

Lemma hex_nibble_not_NUL v j : hex_nibble v j <> NUL.
Proof.
  unfold hex_nibble.
  assert (H : 0 <= Z.land (Z.shiftr v (4 * Z.of_nat j)) 15 < 16).
  { change 15 with (Z.ones 4). rewrite Z.land_ones by lia.
    apply Z.mod_pos_bound. lia. }
  set (d := Z.land (Z.shiftr v (4 * Z.of_nat j)) 15) in *.
  assert (Hd : (Z.to_nat d < 16)%nat) by lia.
  remember (Z.to_nat d) as n eqn:Hn. clear Hn H.
  do 16 (destruct n as [|n]; [intro E; vm_compute in E; discriminate E|]).
  lia.
Qed.

Lemma hex64_no_NUL v : Forall (fun c => c <> NUL) (hex64 v).
Proof.
  unfold hex64. apply Forall_map. apply Forall_forall.
  intros j _. apply hex_nibble_not_NUL.
Qed.

Lemma loop_text_no_NUL toks : forall i,
  Forall (Forall (fun c => c <> NUL)) toks ->
  Forall (fun c => c <> NUL) (loop_text i toks).
Proof.
  induction toks as [|tok toks IH]; intros i Hall; simpl; [constructor|].
  inversion Hall as [|? ? Htok Htoks]; subst.
  rewrite !Forall_app. repeat split.
  - destruct (i =? 0); repeat constructor. discriminate.
  - assumption.
  - apply IH. assumption.
Qed.

(** After iteration 0 every token has a space before it; from iteration 0
    the loop's bytes are the tokens separated by single spaces. *)
Lemma loop_text_later toks : forall i, i <> 0 ->
  0 <= i -> loop_text i toks = concat (map (cons SPACE) toks).
Proof.
  induction toks as [|tok toks IH]; intros i Hi Hpos; simpl; [reflexivity|].
  destruct (i =? 0) eqn:E; [lia|]. simpl. f_equal. f_equal. apply IH; lia.
Qed.

Lemma join_tokens_cons tok toks :
  join_tokens (tok :: toks) = tok ++ concat (map (cons SPACE) toks).
Proof.
  revert tok. induction toks as [|tok' toks IH]; intros tok.
  - simpl. rewrite app_nil_r. reflexivity.
  - change (join_tokens (tok :: tok' :: toks))
      with (tok ++ SPACE :: join_tokens (tok' :: toks)).
    rewrite IH. reflexivity.
Qed.

Lemma loop_text_join toks : loop_text 0 toks = join_tokens toks.
Proof.
  destruct toks as [|tok toks]; [reflexivity|].
  rewrite join_tokens_cons. simpl. f_equal. apply loop_text_later; lia.
Qed.

Lemma c_str_terminated text : forall rest,
  Forall (fun c => c <> NUL) text ->
  c_str (text ++ NUL :: rest) = Some text.
Proof.
  induction text as [|c text IH]; intros rest Hall; simpl.
  - reflexivity.
  - inversion Hall as [|? ? Hc Htext]; subst.
    destruct (Ascii.eqb c NUL) eqn:E.
    + apply Ascii.eqb_eq in E. contradiction.
    + rewrite IH by assumption. reflexivity.
Qed.

Lemma captured_prefix t (k : nat) :
  (k <= Z.to_nat (num_frames_ t))%nat ->
  map (fun j => frame_at t (0 + Z.of_nat j)) (seq 0 k) = take k (captured t).
Proof.
  intros Hk. unfold captured.
  rewrite firstn_map, take_seq.
  replace (k `min` Z.to_nat (num_frames_ t))%nat with k by lia. reflexivity.
Qed.

Lemma run_stores_snoc ws (d : Z) c buf :
  0 <= d < Z.of_nat (length buf) ->
  run_stores (ws ++ [(d, c)]) buf
  = take (Z.to_nat d) (run_stores ws buf)
    ++ c :: drop (S (Z.to_nat d)) (run_stores ws buf).
Proof.
  intros Hd. rewrite run_stores_app.
  change (run_stores [(d, c)] (run_stores ws buf))
    with (poke (run_stores ws buf) (d, c)).
  unfold poke. cbn [fst snd].
  destruct (0 <=? d) eqn:E; [|lia].
  apply insert_take_drop. rewrite length_run_stores. lia.
Qed.

(** [StringifyToHex] in full: for a destination of at least one byte, every
    store stays inside it, and whatever the destination held before, it ends
    up holding the terminated text of the first [k] captured frames, for a
    [k] that depends on the trace and the size only. *)
Lemma StringifyToHex_effect t size :
  1 <= size ->
  Forall (within size) (StringifyToHex t size) /\
  exists k : nat,
    (k <= length (captured t))%nat /\
    (size <= kHexEntryLength + 2 -> k = 0%nat) /\
    (k = 0%nat -> StringifyToHex t size = [(0, NUL)]) /\
    forall buf, Z.of_nat (length buf) = size ->
      c_str (run_stores (StringifyToHex t size) buf)
      = Some (hex_text (take k (captured t))).
Proof.
  intros Hsize. unfold StringifyToHex.
  destruct (StringifyToHex_loop (Z.to_nat (num_frames_ t)) t
              (0 + size - kHexEntryLength - 2) 0 0) as [ws dst'] eqn:Hloop.
  destruct (StringifyToHex_loop_effect _ _ _ _ _ _ _ (Z.le_refl 0) (Z.le_refl 0) Hloop)
    as (k & Hk & Hpos & Hzero & Hmono & Hrange & Htext).
  unfold kHexEntryLength in *.
  assert (Hend : 0 <= dst' < size).
  { destruct k as [|k'].
    - destruct (Hzero eq_refl) as [-> _]. lia.
    - destruct (Hpos ltac:(lia)) as (_ & _ & ?). lia. }
  split.
  - apply Forall_app. split.
    + eapply Forall_impl; [|exact Hrange]. unfold within. simpl. intros w Hw. lia.
    + repeat constructor; simpl; lia.
  - exists k. split; [|split; [|split]].
    + unfold captured. rewrite length_map, length_seq. exact Hk.
    + intros Hsmall. destruct k as [|k']; [reflexivity|].
      destruct (Hpos ltac:(lia)) as (_ & ? & _). lia.
    + intros Hk0. destruct (Hzero Hk0) as [-> ->]. reflexivity.
    + intros buf Hbuf.
      rewrite run_stores_snoc by lia.
      rewrite Htext by lia. change (take (Z.to_nat 0) buf) with (@nil ascii).
      rewrite app_nil_l.
      rewrite captured_prefix by exact Hk.
      unfold hex_text. rewrite <- loop_text_join. apply c_str_terminated.
      apply loop_text_no_NUL.
      apply Forall_map. apply Forall_forall. intros a _. apply hex64_no_NUL.
Qed.

Lemma StringifyToHex_size_0 t : StringifyToHex t 0 = [(0, NUL)].
Proof.
  unfold StringifyToHex.
  destruct (Z.to_nat (num_frames_ t)) as [|fuel]; cbn [StringifyToHex_loop].
  - reflexivity.
  - replace (0 <? 0 + 0 - kHexEntryLength - 2) with false by reflexivity.
    rewrite andb_false_r. reflexivity.
Qed.

(** C2, as amended: for every captured trace and every destination of
    [size >= 1] bytes, [StringifyToHex] stores inside the destination only and
    leaves a terminated string there; the string is made of whole tokens, those
    of the first [k] captured frames and nothing of the others; with no frame
    captured, and likewise with a size too small for a token, it stores the
    terminator alone and the string is empty. *)
Theorem StringifyToHex_within_and_terminated t size :
  1 <= size ->
  Forall (within size) (StringifyToHex t size) /\
  (exists k : nat,
     (k <= length (captured t))%nat /\
     forall buf, Z.of_nat (length buf) = size ->
       c_str (run_stores (StringifyToHex t size) buf)
       = Some (hex_text (take k (captured t)))) /\
  (num_frames_ t <= 0 ->
     StringifyToHex t size = [(0, NUL)] /\
     forall buf, Z.of_nat (length buf) = size ->
       c_str (run_stores (StringifyToHex t size) buf) = Some []) /\
  (size <= kHexEntryLength ->
     StringifyToHex t size = [(0, NUL)] /\
     forall buf, Z.of_nat (length buf) = size ->
       c_str (run_stores (StringifyToHex t size) buf) = Some []).
Proof.
  intros Hsize.
  destruct (StringifyToHex_effect t size Hsize)
    as (Hin & k & Hk & Hsmall & Hnone & Htext).
  split; [exact Hin|]. split; [exists k; split; assumption|].
  assert (Hempty : k = 0%nat ->
     StringifyToHex t size = [(0, NUL)] /\
     forall buf, Z.of_nat (length buf) = size ->
       c_str (run_stores (StringifyToHex t size) buf) = Some []).
  { intros ->. split; [exact (Hnone eq_refl)|].
    intros buf Hbuf. rewrite (Htext buf Hbuf). reflexivity. }
  split.
  - intros Hframes. apply Hempty.
    unfold captured in Hk. rewrite length_map, length_seq in Hk. lia.
  - intros Htiny. apply Hempty, Hsmall. lia.
Qed.

(** C9: the terminator is stored unconditionally. For every capacity of at
    least one byte, and every trace, all stores of [StringifyToHex] stay inside
    the buffer; with capacity 0 the call still stores the terminator at offset
    0, one byte outside the permitted (empty) region. The same holds of
    [HexStackTraceToString], which hands its [size] on. *)
Theorem StringifyToHex_capacity_precondition :
  (forall t size, 1 <= size -> Forall (within size) (StringifyToHex t size)) /\
  (forall callstack size,
     1 <= size -> Forall (within size) (HexStackTraceToString callstack size)) /\
  (forall t, StringifyToHex t 0 = [(0, NUL)] /\
             ~ Forall (within 0) (StringifyToHex t 0)) /\
  (forall callstack,
     HexStackTraceToString callstack 0 = [(0, NUL)] /\
     ~ Forall (within 0) (HexStackTraceToString callstack 0)).
Proof.
  assert (Hout : ~ Forall (within 0) [(0, NUL)]).
  { intros Hall. inversion Hall as [|? ? Hw _]; subst.
    unfold within in Hw. simpl in Hw. lia. }
  split; [|split; [|split]].
  - intros t size Hsize. apply (StringifyToHex_effect t size Hsize).
  - intros callstack size Hsize. unfold HexStackTraceToString.
    apply (StringifyToHex_effect _ size Hsize).
  - intros t. rewrite StringifyToHex_size_0. split; [reflexivity|exact Hout].
  - intros callstack. unfold HexStackTraceToString.
    rewrite StringifyToHex_size_0. split; [reflexivity|exact Hout].
Qed.

Lemma ToHexString_size : 1 <= Z.pos kMaxFrames * (kHexEntryLength + 1) + 1.
Proof. unfold kHexEntryLength. lia. Qed.

(** C10: hex encoding is deterministic. The text [ToHexString] returns is a
    function of the trace alone: it does not depend on what its local buffer
    held before. Likewise [StringifyToHex] leaves the same text in any two
    destinations of the same capacity, whatever they held, and
    [GetStackTraceHex] returns the same text for the same call stack. *)
Theorem hex_encoding_deterministic t :
  (exists text, forall junk, ToHexString t junk = Some text) /\
  (forall size, 1 <= size ->
     exists text, forall buf, Z.of_nat (length buf) = size ->
       c_str (run_stores (StringifyToHex t size) buf) = Some text) /\
  (forall callstack,
     exists text, forall junk, GetStackTraceHex callstack junk = Some text).
Proof.
  split; [|split].
  3:{ intros callstack. unfold GetStackTraceHex, HexStackTraceToString.
      destruct (StringifyToHex_effect
                  (Collect (Z.pos kMaxFrames) callstack 1
                     {| num_frames_ := 0;
                        frames_ := repeat 0 (Pos.to_nat kMaxFrames) |})
                  1024 ltac:(lia))
        as (_ & k & _ & _ & _ & Htext).
      eexists. intros junk. rewrite Htext; [reflexivity|].
      rewrite length_resize. reflexivity. }
  - destruct (StringifyToHex_effect t _ ToHexString_size)
      as (_ & k & _ & _ & _ & Htext).
    exists (string_of_list_ascii (hex_text (take k (captured t)))).
    intros junk. unfold ToHexString. rewrite Htext; [reflexivity|].
    rewrite length_resize. apply Z2Nat.id. pose proof ToHexString_size. lia.
  - intros size Hsize.
    destruct (StringifyToHex_effect t size Hsize)
      as (_ & k & _ & _ & _ & Htext).
    exists (hex_text (take k (captured t))). exact Htext.
Qed.

(* ===================================================================== *)
(** * Facts about Part II                                                 *)
(* ===================================================================== *)

Lemma append_assoc (a b c : string) :
  ((a ++ b) ++ c)%string = (a ++ b ++ c)%string.
Proof. induction a as [|x a IH]; simpl; [reflexivity|]. rewrite IH. reflexivity. Qed.

Lemma append_empty_r (a : string) : (a ++ "")%string = a.
Proof. induction a as [|x a IH]; simpl; [reflexivity|]. rewrite IH. reflexivity. Qed.

Lemma count_char_append c (a b : string) :
  count_char c (a ++ b)%string = (count_char c a + count_char c b)%nat.
Proof. induction a as [|x a IH]; simpl; [reflexivity|]. rewrite IH. lia. Qed.

(** The loop of [Symbolize], from any index on: one line and one resolver
    call per remaining frame, in order. *)
Lemma Symbolize_loop_effect fuel : forall t i ret asked,
  0 <= i ->
  let pcs := map (fun j => frame_at t (i + Z.of_nat j))
                 (seq 0 (fuel `min` Z.to_nat (num_frames_ t - i))) in
  Symbolize_loop fuel t i ret asked
  = ((ret ++ cat (map (fun pc => frame_line pc (symbol_for pc)) pcs))%string,
     asked ++ map char_ptr_minus_1 pcs).
Proof.
  induction fuel as [|fuel IH]; intros t i ret asked Hi; cbn [Symbolize_loop].
  - simpl. rewrite append_empty_r, app_nil_r. reflexivity.
  - destruct (i <? num_frames_ t) eqn:E.
    + apply Z.ltb_lt in E.
      rewrite IH by lia. cbv zeta.
      replace (S fuel `min` Z.to_nat (num_frames_ t - i))%nat
        with (S (fuel `min` Z.to_nat (num_frames_ t - (i + 1)))) by lia.
      rewrite captured_from_step. cbn [map cat fold_right].
      fold (symbol_for (frame_at t i)).
      rewrite append_assoc, <- app_assoc. reflexivity.
    + apply Z.ltb_ge in E.
      replace (S fuel `min` Z.to_nat (num_frames_ t - i))%nat with 0%nat by lia.
      simpl. rewrite append_empty_r, app_nil_r. reflexivity.
Qed.

Lemma count_newline_frame_line pc symbol :
  count_char "010"%char (printf_pointer kPrintfPointerFieldWidth pc) = 0%nat ->
  count_char "010"%char symbol = 0%nat ->
  count_char "010"%char (frame_line pc symbol) = 1%nat.
Proof.
  intros Hp Hs. unfold frame_line, newline.
  rewrite !count_char_append, Hp, Hs. reflexivity.
Qed.

(** C7: [Symbolize] produces the lines of the captured frames
    [frames_[0] .. frames_[num_frames_ - 1]], one per frame and in order. A
    line is the text "    @ ", the captured address itself printed by [%*p] in
    a field of 18 characters, two spaces, the symbol text and a newline. The
    symbol text is what the resolver answers for the captured address less
    one byte, and "(unknown)" where the resolver fails, the other frames being
    rendered all the same. The text and the addresses handed to the resolver
    are spelled out here, not taken from the definitions of the model. *)
Theorem Symbolize_one_line_per_frame t :
  let resolved := fun pc : Z => google_Symbolize ((pc - 1) mod 2 ^ 64) in
  let line := fun pc : Z =>
    ("    @ " ++ printf_pointer 18 pc ++ "  "
     ++ match resolved pc with
        | Some tmp => tmp
        | None => "(unknown)"
        end
     ++ String "010"%char EmptyString)%string in
  Symbolize_traced t
  = (fold_right String.append EmptyString (map line (captured t)),
     map (fun pc => (pc - 1) mod 2 ^ 64) (captured t)) /\
  Symbolize t = fold_right String.append EmptyString (map line (captured t)) /\
  captured t
  = map (fun i => nth i (frames_ t) 0) (seq 0 (Z.to_nat (num_frames_ t))) /\
  length (captured t) = Z.to_nat (num_frames_ t) /\
  (forall pc, 0 < pc < 2 ^ 64 -> (pc - 1) mod 2 ^ 64 = pc - 1) /\
  (forall pc tmp, resolved pc = Some tmp ->
     line pc
     = ("    @ " ++ printf_pointer 18 pc ++ "  " ++ tmp
        ++ String "010"%char EmptyString)%string) /\
  (forall pc, resolved pc = None ->
     line pc
     = ("    @ " ++ printf_pointer 18 pc ++ "  (unknown)"
        ++ String "010"%char EmptyString)%string) /\
  ((forall pc, count_char "010"%char (printf_pointer 18 pc) = 0%nat) ->
   (forall pc tmp, resolved pc = Some tmp -> count_char "010"%char tmp = 0%nat) ->
   count_char "010"%char (Symbolize t) = length (captured t)).
Proof.
  intros resolved line.
  assert (Hline : forall pc, frame_line pc (symbol_for pc) = line pc) by reflexivity.
  assert (Hrun : Symbolize_traced t
    = (fold_right String.append EmptyString (map line (captured t)),
       map (fun pc => (pc - 1) mod 2 ^ 64) (captured t))).
  { unfold Symbolize_traced. rewrite Symbolize_loop_effect by lia.
    cbv zeta. rewrite Z.sub_0_r, Nat.min_id. reflexivity. }
  split; [exact Hrun|]. split; [unfold Symbolize; rewrite Hrun; reflexivity|].
  split.
  { unfold captured, frame_at. apply map_ext. intros i. rewrite Nat2Z.id.
    reflexivity. }
  split.
  { unfold captured. rewrite length_map, length_seq. reflexivity. }
  split.
  { intros pc Hpc. apply Z.mod_small. lia. }
  split.
  { intros pc tmp Hsome. unfold line. rewrite Hsome. reflexivity. }
  split.
  { intros pc Hnone. unfold line. rewrite Hnone. reflexivity. }
  intros Hpointer Hsymbol. unfold Symbolize. rewrite Hrun. cbn [fst]. clear Hrun.
  induction (captured t) as [|pc pcs IH]; [reflexivity|].
  cbn [map fold_right length].
  rewrite count_char_append, IH, <- Hline.
  rewrite count_newline_frame_line; [reflexivity|apply Hpointer|].
  unfold symbol_for, char_ptr_minus_1.
  destruct (google_Symbolize ((pc - 1) mod 2 ^ 64)) as [tmp|] eqn:E.
  - apply (Hsymbol pc tmp). exact E.
  - reflexivity.
Qed.

(* ===================================================================== *)
(** * Facts about Part III                                                *)
(* ===================================================================== *)

Lemma threads_set_thread_same me th p : threads (set_thread me th p) me = th.
Proof. cbn. apply fn_lookup_insert. Qed.

Lemma threads_set_thread_other me th p x :
  x <> me -> threads (set_thread me th p) x = threads p x.
Proof. intros Hne. cbn. apply fn_lookup_insert_ne. congruence. Qed.

Lemma coherent_boot : coherent boot.
Proof.
  split; cbn; try discriminate; try reflexivity.
  - intros [me|me]; cbn; discriminate.
  - intros [me|me]; cbn; discriminate.
  - intros me [H|H]; [discriminate|contradiction].
  - split; discriminate.
Qed.

(** [post_signal] touches the pending signals only. *)
Lemma post_signal_comm tid p : g_comm (post_signal tid p) = g_comm p.
Proof. destruct tid; reflexivity. Qed.
Lemma post_signal_threads tid p : threads (post_signal tid p) = threads p.
Proof. destruct tid; reflexivity. Qed.
Lemma post_signal_mutex tid p :
  dumper_thread_lock_ (post_signal tid p) = dumper_thread_lock_ p.
Proof. destruct tid; reflexivity. Qed.
Lemma post_signal_initialized tid p :
  initialized (post_signal tid p) = initialized p.
Proof. destruct tid; reflexivity. Qed.
Lemma post_signal_fatal tid p : fatal (post_signal tid p) = fatal p.
Proof. destruct tid; reflexivity. Qed.

Lemma expects_target_in_mutex pc v :
  expects_target pc = Some v -> in_mutex pc = true.
Proof. destruct pc; cbn; congruence. Qed.

(** ** Coherence is kept by every action

    One lemma per field of [coherent]. Each goes through the instructions of
    [step] ([step_cases]), looks up the threads of the statement, the one that
    moves ([me]) apart from the others ([split_thread]), and closes the cases
    from the facts of the process before the action. *)

(** Reads the thread table and the fields of the process after an action. *)
Ltac look :=
  cbn in *;
  repeat first
    [ rewrite fn_lookup_insert in *
    | rewrite fn_lookup_insert_ne in * by congruence
    | rewrite post_signal_comm in *
    | rewrite post_signal_threads in *
    | rewrite post_signal_mutex in *
    | rewrite post_signal_initialized in *
    | rewrite post_signal_fatal in * ];
  cbn in *.

(** Splits on the conditions of the instruction, as propositions on [Z]. *)
Ltac branches :=
  repeat match goal with
  | |- context [if ?c then _ else _] => destruct c eqn:?
  end;
  repeat match goal with
  | E : (_ =? _) = true |- _ => apply Z.eqb_eq in E
  | E : (_ =? _) = false |- _ => apply Z.eqb_neq in E
  | E : negb _ = true |- _ => apply negb_true_iff in E
  | E : negb _ = false |- _ => apply negb_false_iff in E
  end.

(** The case analysis of [step]: one goal per instruction and outcome. *)
Ltac step_cases a p me Hd Hh :=
  unfold step;
  destruct (fatal p) eqn:Hfatal; [|
  destruct a as [me ?tid|me ?r|me|me];
  [ destruct (handler (threads p me)) eqn:Hh; [|
    destruct (dumper (threads p me)) eqn:Hd ]
  | destruct (handler (threads p me)) as [[]|] eqn:Hh;
    [ cbn [HandleStackTraceSignal_step]; branches ..
    | destruct (dumper (threads p me)) eqn:Hd; cbn [DumpThreadStack_step]; branches ]
  | destruct (handler (threads p me)) eqn:Hh; [|
    branches ]
  | idtac ] ].

(** Brings the facts about the process before the action to the program
    points [Hd] and [Hh] name. *)
Ltac old_facts Hd Hh :=
  cbn in *; rewrite ?Hd, ?Hh in *; cbn in *;
  repeat match goal with
  | K : forall v : Z, Some ?a = Some v -> _ |- _ => specialize (K _ eq_refl)
  end.

Ltac finish :=
  try discriminate; try congruence; try lia; try solve [eauto];
  try solve [intuition (try discriminate; try congruence; try lia; eauto)].

Ltac split_thread x me := destruct (Pos.eq_dec x me) as [->|?].

Lemma step_lock_bit a p (H : coherent p) :
  forall b, holds_lock (step a p) b = true -> lock (g_comm (step a p)) = 1.
Proof.
  pose proof (lock_bit _ H) as Hbit. pose proof (lock_excludes _ H) as Hex.
  revert Hbit Hex.
  step_cases a p me Hd Hh; try (intros Hbit _; exact Hbit).
  all: intros Hbit Hex [x|x] Hx;
       pose proof (Hbit (Dumper me)); pose proof (Hbit (Handler me));
       pose proof (Hbit (Dumper x)); pose proof (Hbit (Handler x));
       pose proof (Hex (Dumper me) (Dumper x)); pose proof (Hex (Handler me) (Dumper x));
       pose proof (Hex (Dumper me) (Handler x)); pose proof (Hex (Handler me) (Handler x));
       clear Hbit Hex;
       split_thread x me; look; try discriminate; try reflexivity.
  all: old_facts Hd Hh; finish.
Qed.

Lemma step_lock_excludes a p (H : coherent p) :
  forall b c, holds_lock (step a p) b = true -> holds_lock (step a p) c = true ->
              b = c.
Proof.
  pose proof (lock_bit _ H) as Hbit. pose proof (lock_excludes _ H) as Hex.
  revert Hbit Hex.
  step_cases a p me Hd Hh; try (intros _ Hex; exact Hex).
  all: intros Hbit Hex b c Hb Hc;
       pose proof (Hbit (Dumper me)); pose proof (Hbit (Handler me));
       pose proof (Hbit b); pose proof (Hbit c); pose proof (Hex b c);
       pose proof (Hex (Dumper me) b); pose proof (Hex (Handler me) b);
       pose proof (Hex (Dumper me) c); pose proof (Hex (Handler me) c);
       pose proof (Hex (Dumper me) (Handler me));
       clear Hbit Hex;
       destruct b as [x|x], c as [y|y];
       split_thread x me; split_thread y me; look;
       try discriminate; try reflexivity.
  all: old_facts Hd Hh; finish.
Qed.

Lemma step_mutex_bit a p (H : coherent p) :
  forall x, in_mutex (dumper (threads (step a p) x)) = true ->
            dumper_thread_lock_ (step a p) = true.
Proof.
  pose proof (mutex_bit _ H) as Hbit. pose proof (mutex_excludes _ H) as Hex.
  revert Hbit Hex.
  step_cases a p me Hd Hh; try (intros Hbit _; exact Hbit).
  all: intros Hbit Hex x Hx;
       pose proof (Hbit me); pose proof (Hbit x); pose proof (Hex me x);
       clear Hbit Hex;
       split_thread x me; look; try discriminate; try reflexivity.
  all: old_facts Hd Hh; finish.
Qed.

Lemma step_mutex_excludes a p (H : coherent p) :
  forall x y, in_mutex (dumper (threads (step a p) x)) = true ->
              in_mutex (dumper (threads (step a p) y)) = true -> x = y.
Proof.
  pose proof (mutex_bit _ H) as Hbit. pose proof (mutex_excludes _ H) as Hex.
  revert Hbit Hex.
  step_cases a p me Hd Hh; try (intros _ Hex; exact Hex).
  all: intros Hbit Hex x y Hx Hy;
       pose proof (Hbit me); pose proof (Hbit x); pose proof (Hbit y);
       pose proof (Hex x y); pose proof (Hex me x); pose proof (Hex me y);
       clear Hbit Hex;
       split_thread x me; split_thread y me; look;
       try discriminate; try reflexivity.
  all: old_facts Hd Hh; finish.
Qed.

Lemma step_target_idle a p (H : coherent p) :
  dumper_thread_lock_ (step a p) = false -> target_tid (g_comm (step a p)) = 0.
Proof.
  pose proof (target_idle _ H) as Hidle. pose proof (mutex_bit _ H) as Hbit.
  pose proof (target_known _ H) as Hknown.
  revert Hidle Hbit Hknown.
  step_cases a p me Hd Hh; try (intros Hidle _ _; exact Hidle).
  all: intros Hidle Hbit Hknown Hfree;
       pose proof (Hbit me); pose proof (Hknown me);
       clear Hbit Hknown; look; try discriminate; try reflexivity.
  all: old_facts Hd Hh; finish.
Qed.

Lemma step_target_known a p (H : coherent p) :
  forall x v, expects_target (dumper (threads (step a p) x)) = Some v ->
              target_tid (g_comm (step a p)) = v.
Proof.
  pose proof (target_idle _ H) as Hidle. pose proof (mutex_excludes _ H) as Hex.
  pose proof (target_known _ H) as Hknown.
  revert Hidle Hex Hknown.
  step_cases a p me Hd Hh; try (intros _ _ Hknown; exact Hknown).
  all: intros Hidle Hex Hknown x v Hx;
       pose proof (Hknown me); pose proof (Hknown x v); pose proof (Hex me x);
       pose proof (expects_target_in_mutex (dumper (threads p x)) v);
       clear Hex Hknown;
       split_thread x me; look; try discriminate; try congruence.
  all: old_facts Hd Hh; finish.
Qed.

Lemma step_handler_installed a p (H : coherent p) :
  forall x, past_install (dumper (threads (step a p) x)) = true \/
            handler (threads (step a p) x) <> None ->
            initialized (step a p) = true.
Proof.
  pose proof (handler_installed _ H) as Hinst. revert Hinst.
  step_cases a p me Hd Hh; try (intros Hinst; exact Hinst).
  all: intros Hinst x Hx;
       pose proof (Hinst me); pose proof (Hinst x); clear Hinst;
       split_thread x me; look; try discriminate; try reflexivity.
  all: old_facts Hd Hh; finish.
Qed.

Lemma step_handler_matches a p (H : coherent p) :
  forall x, handler_collects (handler (threads (step a p) x)) = true ->
            target_tid (g_comm (step a p)) = Z.pos x.
Proof.
  pose proof (handler_matches _ H) as Hmatch. pose proof (lock_excludes _ H) as Hex.
  revert Hmatch Hex.
  step_cases a p me Hd Hh; try (intros Hmatch _; exact Hmatch).
  all: intros Hmatch Hex x Hx;
       pose proof (Hmatch me); pose proof (Hmatch x);
       pose proof (Hex (Dumper me) (Handler x));
       assert (handler_collects (handler (threads p x)) = true ->
               handler_locks (handler (threads p x)) = true)
         by (destruct (handler (threads p x)) as [[]|]; cbn; congruence);
       clear Hmatch Hex;
       split_thread x me; look; try discriminate; try congruence.
  all: old_facts Hd Hh; finish.
Qed.

Lemma step_checks_pass a p (H : coherent p) :
  fatal (step a p) <> Some SessionActive /\ fatal (step a p) <> Some TargetChanged.
Proof.
  pose proof (checks_pass _ H) as Hchecks. pose proof (target_known _ H) as Hknown.
  revert Hchecks Hknown.
  step_cases a p me Hd Hh.
  all: intros Hchecks Hknown; look; rewrite ?Hfatal;
       try exact Hchecks; try (split; discriminate).
  all: pose proof (Hknown me); clear Hknown; old_facts Hd Hh; exfalso; finish.
Qed.

(** Every instruction, call and signal keeps the process coherent. *)
Lemma coherent_step a p : coherent p -> coherent (step a p).
Proof.
  intros H. split.
  - apply step_lock_bit, H.
  - apply step_lock_excludes, H.
  - apply step_mutex_bit, H.
  - apply step_mutex_excludes, H.
  - apply step_target_idle, H.
  - apply step_target_known, H.
  - apply step_handler_installed, H.
  - apply step_handler_matches, H.
  - apply step_checks_pass, H.
Qed.

Lemma coherent_run sched : forall p, coherent p -> coherent (run sched p).
Proof.
  induction sched as [|a sched IH]; intros p H; [exact H|].
  apply IH, coherent_step, H.
Qed.

(** ** Once the handler is installed, nothing ends the process *)

Lemma initialized_step a p : initialized p = true -> initialized (step a p) = true.
Proof.
  step_cases a p me Hd Hh; intros Hinit; look; try rewrite Hinit; congruence.
Qed.

Lemma alive_step a p :
  coherent p -> fatal p = None -> initialized p = true -> fatal (step a p) = None.
Proof.
  intros H Halive Hinit.
  pose proof (step_checks_pass a p H) as Hchecks. revert Hchecks.
  step_cases a p me Hd Hh; intros [Hs Ht]; look; congruence.
Qed.

Lemma alive_run sched : forall p,
  coherent p -> fatal p = None -> initialized p = true ->
  fatal (run sched p) = None /\ initialized (run sched p) = true.
Proof.
  induction sched as [|a sched IH]; intros p H Halive Hinit; [split; assumption|].
  apply IH.
  - apply coherent_step, H.
  - apply alive_step; assumption.
  - apply initialized_step, Hinit.
Qed.

(** ** A call seen from its own thread *)

Lemma DumpThreadStack_step_keeps_threads r pc p :
  threads (snd (DumpThreadStack_step r pc p)) = threads p.
Proof.
  destruct pc; cbn [DumpThreadStack_step]; branches; try reflexivity.
  apply post_signal_threads.
Qed.

(** Only the thread's own instructions, while no handler runs on it, and
    its own calls move its place in [DumpThreadStack]. *)
Lemma dumper_after_step a p me :
  dumper (threads (step a p) me) = dumper (threads p me) \/
  (exists r, a = Exec me r /\
     dumper (threads (step a p) me) = fst (DumpThreadStack_step r (dumper (threads p me)) p)) \/
  (exists tid, a = Call me tid).
Proof.
  unfold step. destruct (fatal p); [left; reflexivity|].
  destruct a as [x tid|x r|x|x].
  - destruct (Pos.eq_dec x me) as [->|Hne]; [right; right; eauto|].
    left. destruct (handler (threads p x)); [reflexivity|].
    destruct (dumper (threads p x)); try reflexivity;
      rewrite threads_set_thread_other by congruence; reflexivity.
  - destruct (Pos.eq_dec x me) as [->|Hne].
    + destruct (handler (threads p me)) as [h|].
      * left. destruct (HandleStackTraceSignal_step me r h (g_comm p)) as [h' c'].
        rewrite threads_set_thread_same. reflexivity.
      * right; left. exists r. split; [reflexivity|].
        destruct (DumpThreadStack_step r (dumper (threads p me)) p) as [pc' p'].
        rewrite threads_set_thread_same. reflexivity.
    + left. destruct (handler (threads p x)) as [h|].
      * destruct (HandleStackTraceSignal_step x r h (g_comm p)) as [h' c'].
        rewrite threads_set_thread_other by congruence. reflexivity.
      * pose proof (DumpThreadStack_step_keeps_threads r (dumper (threads p x)) p) as Hsame.
        destruct (DumpThreadStack_step r (dumper (threads p x)) p) as [pc' p'].
        rewrite threads_set_thread_other by congruence.
        cbn [snd] in Hsame. rewrite Hsame. reflexivity.
  - left. destruct (handler (threads p x)); [reflexivity|].
    destruct (pending p x); [|reflexivity].
    destruct (initialized p); [|reflexivity].
    destruct (Pos.eq_dec x me) as [->|Hne].
    + rewrite threads_set_thread_same. reflexivity.
    + rewrite threads_set_thread_other by congruence. reflexivity.
  - left. reflexivity.
Qed.

(** A set of program points that the instructions of [DumpThreadStack] never
    leave is not left while the thread makes no new call. *)
Lemma dumper_stays (P : dumper_pc -> Prop) me :
  (forall r pc q, P pc -> P (fst (DumpThreadStack_step r pc q))) ->
  forall sched p,
    calls me sched = false ->
    P (dumper (threads p me)) -> P (dumper (threads (run sched p) me)).
Proof.
  intros Hclosed sched. induction sched as [|a sched IH]; intros p Hcalls HP.
  - exact HP.
  - cbn [calls existsb] in Hcalls. apply orb_false_iff in Hcalls as [Ha Hrest].
    cbn [run fold_left]. apply IH; [exact Hrest|].
    destruct (dumper_after_step a p me) as [E|[(r & -> & E)|(tid & ->)]].
    + rewrite E. exact HP.
    + rewrite E. apply Hclosed, HP.
    + rewrite Pos.eqb_refl in Ha. discriminate.
Qed.

Lemma returning_closed tid text r pc q :
  returning tid text pc -> returning tid text (fst (DumpThreadStack_step r pc q)).
Proof.
  unfold returning. intros [->|[->|[->|[->| ->]]]]; cbn; auto 6.
Qed.

Lemma giving_up_closed tid r pc q :
  giving_up tid pc -> giving_up tid (fst (DumpThreadStack_step r pc q)).
Proof.
  unfold giving_up. intros [->|[->|[->|[->| ->]]]]; cbn; auto 6.
  destruct (lock (g_comm q) =? 0); cbn; auto.
Qed.

(** What an instruction of [DumpThreadStack] does to the process, when the
    thread runs no handler. *)
Lemma exec_dumper p me r pc :
  fatal p = None -> handler (threads p me) = None -> dumper (threads p me) = pc ->
  let p' := step (Exec me r) p in
  let next := DumpThreadStack_step r pc p in
  dumper (threads p' me) = fst next /\ handler (threads p' me) = None /\
  g_comm p' = g_comm (snd next) /\
  dumper_thread_lock_ p' = dumper_thread_lock_ (snd next) /\
  initialized p' = initialized (snd next) /\
  fatal p' = fatal (snd next).
Proof.
  intros Hf Hh <-. cbv zeta. unfold step. rewrite Hf, Hh.
  destruct (DumpThreadStack_step r (dumper (threads p me)) p) as [pc' p'].
  rewrite threads_set_thread_same. cbn. auto 6.
Qed.

(** What an instruction of the handler does to the process. *)
Lemma exec_handler p me r h :
  fatal p = None -> handler (threads p me) = Some h ->
  let p' := step (Exec me r) p in
  let next := HandleStackTraceSignal_step me r h (g_comm p) in
  handler (threads p' me) = fst next /\
  dumper (threads p' me) = dumper (threads p me) /\
  g_comm p' = snd next /\
  dumper_thread_lock_ p' = dumper_thread_lock_ p /\
  fatal p' = None.
Proof.
  intros Hf Hh. cbv zeta. unfold step. rewrite Hf, Hh.
  destruct (HandleStackTraceSignal_step me r h (g_comm p)) as [h' c'].
  rewrite threads_set_thread_same. cbn. auto 6.
Qed.


(** Four instructions of a thread in a row. *)
Lemma run_four p a1 a2 a3 a4 :
  run [a1; a2; a3; a4] p = step a4 (step a3 (step a2 (step a1 p))).
Proof. reflexivity. Qed.

(** C1, as amended: in a call whose signal was delivered to the kernel, the
    value of [result_ready] read under the signal-safe lock after the polling
    loop decides the result: when it is 0 the call returns the text
    "(thread did not respond: maybe it is blocking signals)", parentheses
    included, and otherwise the symbolized [g_comm.stack]. Whatever the other
    threads and signals do from then on, the call returns that text and no
    check aborts the process: the thread's own next four instructions after
    the read take it to the return. *)
Theorem DumpThreadStack_result sched me tid :
  let p := run sched boot in
  fatal p = None -> handler (threads p me) = None ->
  dumper (threads p me) = DReadReady tid ->
  let ret := if result_ready (g_comm p) =? 0 then no_response_text
             else Symbolize (stack (g_comm p)) in
  no_response_text = "(thread did not respond: maybe it is blocking signals)"%string /\
  holds_lock p (Dumper me) = true /\
  forall r,
    let p1 := step (Exec me r) p in
    dumper (threads p1 me) = DResetTarget tid ret /\
    (forall sched', calls me sched' = false ->
       let p2 := run sched' p1 in
       fatal p2 = None /\ returning tid ret (dumper (threads p2 me))) /\
    (forall r1 r2 r3 r4,
       let p5 := run [Exec me r1; Exec me r2; Exec me r3; Exec me r4] p1 in
       dumper (threads p5 me) = DReturned ret /\ fatal p5 = None).
Proof.
  cbv zeta. intros Hf Hh Hd.
  pose proof (coherent_run sched boot coherent_boot) as H.
  split; [reflexivity|].
  split; [cbn; rewrite Hd; reflexivity|].
  intros r.
  destruct (exec_dumper _ me r _ Hf Hh Hd) as (Hpc & Hh1 & Hc1 & Hm1 & Hi1 & Hf1).
  cbn [DumpThreadStack_step fst snd] in Hpc, Hc1, Hm1, Hi1, Hf1.
  split; [exact Hpc|]. split.
  - intros sched' Hcalls.
    assert (Hinit : initialized (run sched boot) = true)
      by (apply (handler_installed _ H me); left; rewrite Hd; reflexivity).
    split.
    + apply alive_run; [apply coherent_step, H|congruence|congruence].
    + apply dumper_stays; [intros; apply returning_closed; assumption|exact Hcalls|].
      rewrite Hpc. left. reflexivity.
  - intros r1 r2 r3 r4. rewrite run_four.
    rewrite Hf in Hf1.
    destruct (exec_dumper _ me r1 _ Hf1 Hh1 Hpc) as (Hpc2 & Hh2 & _ & _ & _ & Hf2).
    cbn [DumpThreadStack_step fst snd set_comm fatal] in Hpc2, Hf2. rewrite Hf1 in Hf2.
    destruct (exec_dumper _ me r2 _ Hf2 Hh2 Hpc2) as (Hpc3 & Hh3 & _ & _ & _ & Hf3).
    cbn [DumpThreadStack_step fst snd set_comm fatal] in Hpc3, Hf3. rewrite Hf2 in Hf3.
    destruct (exec_dumper _ me r3 _ Hf3 Hh3 Hpc3) as (Hpc4 & Hh4 & _ & _ & _ & Hf4).
    cbn [DumpThreadStack_step fst snd set_comm fatal] in Hpc4, Hf4. rewrite Hf3 in Hf4.
    destruct (exec_dumper _ me r4 _ Hf4 Hh4 Hpc4) as (Hpc5 & _ & _ & _ & _ & Hf5).
    cbn [DumpThreadStack_step fst snd set_mutex fatal] in Hpc5, Hf5. rewrite Hf4 in Hf5.
    split; assumption.
Qed.

(** C4, as amended: in a call whose [tgkill] fails, the dumper takes the
    signal-safe lock, sets [target_tid] back to 0, unlocks and returns the text
    "(unable to deliver signal: process may have exited)", parentheses
    included. Whatever the other threads and signals do meanwhile, the call
    stays on that path, [target_tid] is 0 once it has been reset and until the
    dumper mutex is released, and no check aborts the process; with the lock
    free, the thread's own next four instructions take it to the return. *)
Theorem DumpThreadStack_undelivered sched me tid r :
  let p := run sched boot in
  fatal p = None -> handler (threads p me) = None ->
  dumper (threads p me) = DKill tid ->
  tgkill_result r <> 0 ->
  let p1 := step (Exec me r) p in
  undelivered_text = "(unable to deliver signal: process may have exited)"%string /\
  dumper (threads p1 me) = DLockB tid /\
  (forall sched', calls me sched' = false ->
     let p2 := run sched' p1 in
     fatal p2 = None /\ giving_up tid (dumper (threads p2 me)) /\
     (dumper (threads p2 me) = DUnlockB tid \/
      dumper (threads p2 me) = DReturnUndelivered tid ->
      target_tid (g_comm p2) = 0 /\ dumper_thread_lock_ p2 = true)) /\
  (lock (g_comm p) = 0 ->
   forall r1 r2 r3 r4,
     let p5 := run [Exec me r1; Exec me r2; Exec me r3; Exec me r4] p1 in
     dumper (threads p5 me) = DReturned undelivered_text /\
     target_tid (g_comm p5) = 0 /\ fatal p5 = None).
Proof.
  cbv zeta. intros Hf Hh Hd Hfail.
  pose proof (coherent_run sched boot coherent_boot) as H.
  split; [reflexivity|].
  destruct (exec_dumper _ me r _ Hf Hh Hd) as (Hpc & Hh1 & Hc1 & Hm1 & Hi1 & Hf1).
  cbn [DumpThreadStack_step] in Hpc, Hc1, Hm1, Hi1, Hf1.
  destruct (negb (tgkill_result r =? 0)) eqn:E.
  2:{ apply negb_false_iff, Z.eqb_eq in E. contradiction. }
  cbn [fst snd] in Hpc, Hc1, Hm1, Hi1, Hf1.
  split; [exact Hpc|]. split.
  - intros sched' Hcalls.
    assert (Hinit : initialized (run sched boot) = true)
      by (apply (handler_installed _ H me); left; rewrite Hd; reflexivity).
    pose proof (coherent_run sched' _ (coherent_step (Exec me r) _ H)) as H2.
    split; [|split].
    + apply alive_run; [apply coherent_step, H|congruence|congruence].
    + apply dumper_stays; [intros; apply giving_up_closed; assumption|exact Hcalls|].
      rewrite Hpc. left. reflexivity.
    + intros Hat. split.
      * apply (target_known _ H2 me). destruct Hat as [-> | ->]; reflexivity.
      * apply (mutex_bit _ H2 me). destruct Hat as [-> | ->]; reflexivity.
  - intros Hfree r1 r2 r3 r4. rewrite run_four.
    rewrite Hf in Hf1.
    destruct (exec_dumper _ me r1 _ Hf1 Hh1 Hpc) as (Hpc2 & Hh2 & Hc2 & _ & _ & Hf2).
    cbn [DumpThreadStack_step] in Hpc2, Hc2, Hf2. rewrite Hc1, Hfree in Hpc2, Hc2, Hf2.
    cbn in Hpc2, Hc2, Hf2. rewrite Hf1 in Hf2.
    destruct (exec_dumper _ me r2 _ Hf2 Hh2 Hpc2) as (Hpc3 & Hh3 & Hc3 & _ & _ & Hf3).
    cbn [DumpThreadStack_step fst snd set_comm fatal g_comm] in Hpc3, Hc3, Hf3.
    rewrite Hf2 in Hf3.
    destruct (exec_dumper _ me r3 _ Hf3 Hh3 Hpc3) as (Hpc4 & Hh4 & Hc4 & _ & _ & Hf4).
    cbn [DumpThreadStack_step fst snd set_comm fatal g_comm] in Hpc4, Hc4, Hf4.
    rewrite Hf3 in Hf4.
    destruct (exec_dumper _ me r4 _ Hf4 Hh4 Hpc4) as (Hpc5 & _ & Hc5 & _ & _ & Hf5).
    cbn [DumpThreadStack_step fst snd set_mutex fatal g_comm] in Hpc5, Hc5, Hf5.
    rewrite Hf4 in Hf5.
    split; [exact Hpc5|]. split; [|exact Hf5].
    rewrite Hc5, Hc4, Hc3. reflexivity.
Qed.

(** A handler that holds the lock and finds [target_tid] different from its
    own thread id returns right after the comparison: its next program point
    is the unlock of the return at line 95, not [Collect], and neither of its
    two remaining instructions writes [g_comm.stack], [g_comm.result_ready] or
    [g_comm.target_tid]. A whole invocation on such a thread, from the
    delivery of the signal with the lock free, leaves [g_comm] exactly as it
    found it, be it interleaved with nothing ([HandleStackTraceSignal]) or run
    as four actions of the process. With the lock held by the thread the
    handler interrupts, the comparison is never reached. *)
Theorem mismatched_signal_is_ignored p me :
  fatal p = None -> target_tid (g_comm p) <> Z.pos me ->
  (handler (threads p me) = Some HCheck ->
   forall r r',
     let p1 := step (Exec me r) p in
     let p2 := step (Exec me r') p1 in
     handler (threads p1 me) = Some HUnlock /\ g_comm p1 = g_comm p /\
     handler (threads p2 me) = None /\
     stack (g_comm p2) = stack (g_comm p) /\
     result_ready (g_comm p2) = result_ready (g_comm p) /\
     target_tid (g_comm p2) = target_tid (g_comm p) /\
     lock (g_comm p2) = 0) /\
  (handler (threads p me) = None -> pending p me = true ->
   initialized p = true -> lock (g_comm p) = 0 ->
   forall r1 r2 r3,
     let q := run [Deliver me; Exec me r1; Exec me r2; Exec me r3] p in
     g_comm q = g_comm p /\ handler (threads q me) = None /\
     dumper (threads q me) = dumper (threads p me)) /\
  (lock (g_comm p) = 0 ->
   forall r, HandleStackTraceSignal me r (g_comm p) = Some (g_comm p)).
Proof.
  intros Hf Hother. split; [|split].
  3:{ intros Hfree r. unfold HandleStackTraceSignal.
      destruct (g_comm p) as [st tg rr lk]. cbn in Hother, Hfree. subst lk.
      cbn. destruct (tg =? Z.pos me) eqn:E; [apply Z.eqb_eq in E; contradiction|].
      reflexivity. }
  - intros Hh r r'. cbv zeta.
    destruct (exec_handler _ me r _ Hf Hh) as (Hh1 & _ & Hc1 & _ & Hf1).
    cbn [HandleStackTraceSignal_step] in Hh1, Hc1.
    destruct (negb (target_tid (g_comm p) =? Z.pos me)) eqn:E.
    2:{ apply negb_false_iff, Z.eqb_eq in E. contradiction. }
    cbn [fst snd] in Hh1, Hc1.
    destruct (exec_handler _ me r' _ Hf1 Hh1) as (Hh2 & _ & Hc2 & _ & _).
    cbn [HandleStackTraceSignal_step fst snd] in Hh2, Hc2.
    rewrite Hc2, Hc1. cbn. auto 8.
  - intros Hh Hpending Hinit Hfree r1 r2 r3.
    rewrite run_four.
    set (p0 := step (Deliver me) p).
    assert (H0 : fatal p0 = None /\ handler (threads p0 me) = Some HLock /\
                 g_comm p0 = g_comm p /\
                 dumper (threads p0 me) = dumper (threads p me)).
    { unfold p0, step. rewrite Hf. cbv zeta. rewrite Hh, Hpending, Hinit.
      rewrite threads_set_thread_same. cbn. auto. }
    destruct H0 as (Hf0 & Hh0 & Hc0 & Hd0).
    destruct (exec_handler _ me r1 _ Hf0 Hh0) as (Hh1 & Hd1 & Hc1 & _ & Hf1).
    cbn [HandleStackTraceSignal_step] in Hh1, Hc1. rewrite Hc0, Hfree in Hh1, Hc1.
    cbn in Hh1, Hc1.
    destruct (exec_handler _ me r2 _ Hf1 Hh1) as (Hh2 & Hd2 & Hc2 & _ & Hf2).
    cbn [HandleStackTraceSignal_step] in Hh2, Hc2. rewrite Hc1 in Hh2, Hc2.
    cbn [target_tid set_lock] in Hh2, Hc2.
    destruct (negb (target_tid (g_comm p) =? Z.pos me)) eqn:E.
    2:{ apply negb_false_iff, Z.eqb_eq in E. contradiction. }
    cbn [fst snd] in Hh2, Hc2.
    destruct (exec_handler _ me r3 _ Hf2 Hh2) as (Hh3 & Hd3 & Hc3 & _ & _).
    cbn [HandleStackTraceSignal_step fst snd] in Hh3, Hc3.
    split; [|split].
    + rewrite Hc3, Hc2. destruct (g_comm p) as [st tg rr lk]. cbn in *.
      rewrite Hfree. reflexivity.
    + exact Hh3.
    + rewrite Hd3, Hd2, Hd1. exact Hd0.
Qed.

(** C3, as amended: on the matching thread the handler publishes
    [result_ready = 1] while it still holds the signal-safe lock, which it
    releases only afterwards, on return; [Collect] has filled [g_comm.stack]
    before the store, which leaves the stack as it is. So the polling load can
    see [result_ready] set while the lock is held; but when the dumper reads
    [result_ready] and the stack for its result, under the lock, no handler
    is inside the lock. *)
Theorem publish_is_inside_the_lock sched me :
  let p := run sched boot in
  (handler (threads p me) = Some HCollect ->
     holds_lock p (Handler me) = true /\ target_tid (g_comm p) = Z.pos me /\
     forall r, fatal p = None ->
       let p' := step (Exec me r) p in
       handler (threads p' me) = Some HPublish /\
       stack (g_comm p')
       = Collect (Z.pos kMaxFrames) (callstack r) 2 (stack (g_comm p)) /\
       result_ready (g_comm p') = result_ready (g_comm p) /\
       lock (g_comm p') = 1) /\
  (handler (threads p me) = Some HPublish ->
     holds_lock p (Handler me) = true /\ lock (g_comm p) = 1 /\
     target_tid (g_comm p) = Z.pos me /\
     forall r, fatal p = None ->
       let p' := step (Exec me r) p in
       handler (threads p' me) = Some HUnlock /\
       result_ready (g_comm p') = 1 /\ lock (g_comm p') = 1 /\
       stack (g_comm p') = stack (g_comm p)) /\
  (handler (threads p me) = Some HUnlock ->
     lock (g_comm p) = 1 /\
     forall r, fatal p = None ->
       let p' := step (Exec me r) p in
       handler (threads p' me) = None /\ lock (g_comm p') = 0 /\
       result_ready (g_comm p') = result_ready (g_comm p)) /\
  (forall tid, dumper (threads p me) = DReadReady tid ->
     forall x, holds_lock p (Handler x) = false).
Proof.
  cbv zeta. pose proof (coherent_run sched boot coherent_boot) as H.
  set (p := run sched boot) in *.
  split; [|split; [|split]].
  - intros Hh.
    assert (Hheld : holds_lock p (Handler me) = true) by (cbn; rewrite Hh; reflexivity).
    split; [exact Hheld|].
    split; [apply (handler_matches _ H me); rewrite Hh; reflexivity|].
    intros r Hf.
    destruct (exec_handler _ me r _ Hf Hh) as (Hh1 & _ & Hc1 & _ & _).
    cbn [HandleStackTraceSignal_step fst snd] in Hh1, Hc1.
    rewrite Hc1. cbn. rewrite (lock_bit _ H _ Hheld). auto.
  - intros Hh.
    assert (Hheld : holds_lock p (Handler me) = true) by (cbn; rewrite Hh; reflexivity).
    split; [exact Hheld|]. split; [exact (lock_bit _ H _ Hheld)|].
    split; [apply (handler_matches _ H me); rewrite Hh; reflexivity|].
    intros r Hf.
    destruct (exec_handler _ me r _ Hf Hh) as (Hh1 & _ & Hc1 & _ & _).
    cbn [HandleStackTraceSignal_step fst snd] in Hh1, Hc1.
    rewrite Hc1. cbn. rewrite (lock_bit _ H _ Hheld). auto.
  - intros Hh.
    assert (Hheld : holds_lock p (Handler me) = true) by (cbn; rewrite Hh; reflexivity).
    split; [exact (lock_bit _ H _ Hheld)|].
    intros r Hf.
    destruct (exec_handler _ me r _ Hf Hh) as (Hh1 & _ & Hc1 & _ & _).
    cbn [HandleStackTraceSignal_step fst snd] in Hh1, Hc1.
    rewrite Hc1. cbn. auto.
  - intros tid Hd x.
    destruct (holds_lock p (Handler x)) eqn:Hx; [|reflexivity].
    assert (Hme : holds_lock p (Dumper me) = true) by (cbn; rewrite Hd; reflexivity).
    pose proof (lock_excludes _ H _ _ Hme Hx). discriminate.
Qed.

(** ** Further facts about the protocol *)

(** A call returns unless it is kept waiting: every instruction of
    [DumpThreadStack] either brings the call closer to its return, by the
    measure [steps_left], or spins on a lock that is held and changes nothing,
    or is the PCHECK of line 114 failing. *)
Lemma DumpThreadStack_makes_progress sched me r :
  let p := run sched boot in
  fatal p = None -> handler (threads p me) = None ->
  let pc := dumper (threads p me) in
  let p' := step (Exec me r) p in
  let pc' := dumper (threads p' me) in
  steps_left pc = 0%nat \/
  ((steps_left pc' < steps_left pc)%nat /\ fatal p' = None) \/
  (waits pc p /\ pc' = pc /\ g_comm p' = g_comm p) \/
  (exists tid, pc = DInstall tid /\ initialized p = false /\
               signal_result r <> 0 /\ fatal p' = Some InstallFailed).
Proof.
  cbv zeta. intros Hf Hh.
  pose proof (coherent_run sched boot coherent_boot) as H.
  set (p := run sched boot) in *.
  pose proof (target_known _ H me) as Hknown.
  destruct (exec_dumper p me r _ Hf Hh eq_refl) as (Hpc & _ & Hc & _ & _ & Hf').
  rewrite Hpc, Hc, Hf'. clear Hpc Hc Hf'.
  destruct (dumper (threads p me)) eqn:Hd; cbn [DumpThreadStack_step]; branches;
    cbn [fst snd steps_left waits g_comm fatal set_comm set_mutex
         set_initialized crash];
    rewrite ?post_signal_fatal;
    try (left; reflexivity);
    try (right; left; split; [lia|assumption]);
    try (right; right; left; repeat split; congruence).
  - right; right; right. exists tid. auto.
  - specialize (Hknown _ eq_refl). congruence.
  - specialize (Hknown _ eq_refl). congruence.
Qed.

Lemma step_past_resets a p (H : coherent p) :
  (forall x, past_resets (dumper (threads p x)) = true ->
             result_ready (g_comm p) = 0) ->
  forall x, past_resets (dumper (threads (step a p) x)) = true ->
            result_ready (g_comm (step a p)) = 0.
Proof.
  pose proof (target_known _ H) as Hknown.
  pose proof (handler_matches _ H) as Hmatch.
  revert Hknown Hmatch.
  step_cases a p me Hd Hh; try (intros _ _ Hclear; exact Hclear).
  all: intros Hknown Hmatch Hclear x Hx;
       pose proof (Hclear me); pose proof (Hclear x);
       pose proof (Hknown x 0); pose proof (Hmatch me);
       assert (past_resets (dumper (threads p x)) = true ->
               expects_target (dumper (threads p x)) = Some 0)
         by (destruct (dumper (threads p x)); cbn; congruence);
       clear Hknown Hmatch Hclear;
       split_thread x me; look; try discriminate; try congruence.
  all: old_facts Hd Hh; finish.
Qed.

(** The exit of lines 160-163 leaves the session state clean: from the two
    resets until the dumper mutex is released, [target_tid] is 0 and
    [result_ready] is 0, whatever the handlers do. *)
Lemma return_path_resets_both sched me :
  let p := run sched boot in
  past_resets (dumper (threads p me)) = true ->
  target_tid (g_comm p) = 0 /\ result_ready (g_comm p) = 0.
Proof.
  cbv zeta. revert me.
  assert (Hall : forall p, coherent p ->
            (forall x, past_resets (dumper (threads p x)) = true ->
                       result_ready (g_comm p) = 0) ->
            forall x, past_resets (dumper (threads (run sched p) x)) = true ->
                      result_ready (g_comm (run sched p)) = 0).
  { induction sched as [|a sched IH]; intros p H Hclear; [exact Hclear|].
    apply IH; [apply coherent_step, H|apply step_past_resets; assumption]. }
  intros me Hme. split.
  - apply (target_known _ (coherent_run sched boot coherent_boot) me).
    destruct (dumper (threads (run sched boot) me)); cbn in Hme |- *; congruence.
  - apply (Hall boot coherent_boot) with (x := me); [|exact Hme].
    intros x Hx. cbn in Hx. discriminate.
Qed.

(** Sessions are serialized: at most one thread is inside the dumper mutex,
    and [target_tid] is set only while one is. *)
Lemma sessions_are_serialized sched :
  let p := run sched boot in
  (forall me me', in_mutex (dumper (threads p me)) = true ->
                  in_mutex (dumper (threads p me')) = true -> me = me') /\
  (target_tid (g_comm p) <> 0 -> dumper_thread_lock_ p = true) /\
  (forall a b, holds_lock p a = true -> holds_lock p b = true -> a = b).
Proof.
  cbv zeta. pose proof (coherent_run sched boot coherent_boot) as H.
  split; [apply (mutex_excludes _ H)|]. split; [|apply (lock_excludes _ H)].
  intros Hset. destruct (dumper_thread_lock_ (run sched boot)) eqn:E; [reflexivity|].
  pose proof (target_idle _ H E). contradiction.
Qed.

(* ===================================================================== *)
(** * Further facts about Parts I and II                                  *)
(* ===================================================================== *)

(** ** How many tokens [StringifyToHex] writes *)

Lemma cursor_at_next i :
  0 <= i ->
  (if i =? 0 then cursor_at i else cursor_at i + 1) + kHexEntryLength
  = cursor_at (i + 1).
Proof.
  intros Hi. unfold cursor_at, kHexEntryLength.
  destruct (Z.eqb_spec i 0); destruct (Z.eqb_spec (i + 1) 0); lia.
Qed.

(** Iteration [i] passes the test [dst < limit] exactly when fewer than
    [tokens_that_fit size] tokens are written so far. *)
Lemma cursor_at_fits i size :
  0 <= i ->
  cursor_at i < 0 + size - kHexEntryLength - 2 <-> i < Z.of_nat (tokens_that_fit size).
Proof.
  intros Hi. unfold cursor_at, tokens_that_fit, kHexEntryLength.
  destruct (Z.leb_spec size (16 + 2)); destruct (Z.eqb_spec i 0); try lia.
  - pose proof (Z.div_pos (size - 16 - 2) (16 + 1) ltac:(lia) ltac:(lia)). lia.
  - assert (Hpos : 0 <= (size - 16 - 2) / (16 + 1))
      by (apply Z.div_pos; lia).
    rewrite Z2Nat.id by lia.
    pose proof (Z.div_mod (size - 16 - 2) (16 + 1) ltac:(lia)) as Hdm.
    pose proof (Z.mod_pos_bound (size - 16 - 2) (16 + 1) ltac:(lia)) as Hmod.
    lia.
Qed.

(** The cursor the loop ends with is that of the iteration at which it
    stops: the first one that has no frame left or no room. *)
Lemma StringifyToHex_loop_cursor fuel : forall t size i,
  0 <= i -> (Z.to_nat (num_frames_ t - i) <= fuel)%nat ->
  snd (StringifyToHex_loop fuel t (0 + size - kHexEntryLength - 2) i (cursor_at i))
  = cursor_at (Z.max i (Z.min (num_frames_ t) (Z.of_nat (tokens_that_fit size)))).
Proof.
  induction fuel as [|fuel IH]; intros t size i Hi Hfuel.
  - cbn [StringifyToHex_loop snd]. f_equal. lia.
  - cbn [StringifyToHex_loop].
    destruct ((i <? num_frames_ t)
              && (cursor_at i <? 0 + size - kHexEntryLength - 2)) eqn:Hcond.
    + apply andb_true_iff in Hcond as [Hlt Hroom].
      apply Z.ltb_lt in Hlt. apply Z.ltb_lt, cursor_at_fits in Hroom; [|exact Hi].
      rewrite cursor_at_next by exact Hi.
      specialize (IH t size (i + 1) ltac:(lia) ltac:(lia)).
      destruct (StringifyToHex_loop fuel t (0 + size - kHexEntryLength - 2)
                  (i + 1) (cursor_at (i + 1))) as [rest dst2].
      cbn [snd] in IH |- *. rewrite IH. f_equal. lia.
    + cbn [snd]. f_equal.
      apply andb_false_iff in Hcond as [Hge|Hfull].
      * apply Z.ltb_ge in Hge. lia.
      * apply Z.ltb_ge in Hfull.
        pose proof (cursor_at_fits i size Hi). lia.
Qed.

Lemma length_concat_spaced (addrs : list Z) :
  length (concat (map (cons SPACE) (map hex64 addrs)))
  = (length addrs * 17)%nat.
Proof.
  induction addrs as [|a addrs IH]; [reflexivity|].
  cbn [map concat]. rewrite length_app, IH. cbn [length].
  rewrite length_hex64. unfold kHexEntryLength. lia.
Qed.

(** The text of [k] tokens ends where iteration [k] would start. *)
Lemma length_hex_text (addrs : list Z) :
  Z.of_nat (length (hex_text addrs)) = cursor_at (Z.of_nat (length addrs)).
Proof.
  unfold hex_text, cursor_at, kHexEntryLength.
  destruct addrs as [|a addrs]; [reflexivity|].
  cbn [map]. rewrite join_tokens_cons, length_app, length_hex64, length_concat_spaced.
  unfold kHexEntryLength. cbn [length].
  change (Z.to_nat 16) with 16%nat.
  destruct (Z.eqb_spec (Z.of_nat (S (length addrs))) 0); lia.
Qed.

Lemma cursor_at_inj i j : 0 <= i -> 0 <= j -> cursor_at i = cursor_at j -> i = j.
Proof.
  unfold cursor_at, kHexEntryLength.
  destruct (Z.eqb_spec i 0); destruct (Z.eqb_spec j 0); lia.
Qed.

Lemma length_captured t : length (captured t) = Z.to_nat (num_frames_ t).
Proof. unfold captured. rewrite length_map, length_seq. reflexivity. Qed.

(** The loop of [StringifyToHex] stops at the first iteration that has no
    frame left or no room, and the text it leaves is that of the frames before
    it. *)
Lemma StringifyToHex_loop_exact t size :
  1 <= size ->
  forall buf, Z.of_nat (length buf) = size ->
    c_str (run_stores (StringifyToHex t size) buf)
    = Some (hex_text (take (tokens_that_fit size) (captured t))) /\
    (length (take (tokens_that_fit size) (captured t))
     = Z.to_nat (num_frames_ t) `min` tokens_that_fit size)%nat.
Proof.
  intros Hsize buf Hbuf.
  split; [|rewrite length_take, length_captured; lia].
  pose proof (StringifyToHex_loop_cursor (Z.to_nat (num_frames_ t)) t size 0
                (Z.le_refl 0) ltac:(lia)) as Hcur.
  change (cursor_at 0) with 0 in Hcur.
  unfold StringifyToHex.
  destruct (StringifyToHex_loop (Z.to_nat (num_frames_ t)) t
              (0 + size - kHexEntryLength - 2) 0 0) as [ws dst'] eqn:Hloop.
  cbn [snd] in Hcur.
  destruct (StringifyToHex_loop_effect _ _ _ _ _ _ _ (Z.le_refl 0) (Z.le_refl 0) Hloop)
    as (k & Hk & Hpos & Hzero & Hmono & Hrange & Htext).
  assert (Hend : 0 <= dst' < size).
  { unfold kHexEntryLength in *. destruct k as [|k'].
    - destruct (Hzero eq_refl) as [-> _]. lia.
    - destruct (Hpos ltac:(lia)) as (_ & _ & ?). lia. }
  rewrite captured_prefix in Htext by exact Hk.
  rewrite loop_text_join in Htext. fold (hex_text (take k (captured t))) in Htext.
  assert (Hlen : dst' = cursor_at (Z.of_nat k)).
  { pose proof (f_equal (@length ascii) (Htext buf ltac:(lia))) as Hl.
    rewrite length_take, length_run_stores, length_app in Hl.
    change (take (Z.to_nat 0) buf) with (@nil ascii) in Hl. cbn [length] in Hl.
    pose proof (length_hex_text (take k (captured t))) as Ht.
    rewrite length_take, length_captured in Ht.
    replace (k `min` Z.to_nat (num_frames_ t))%nat with k in Ht by lia.
    lia. }
  assert (Hexact : k = (Z.to_nat (num_frames_ t) `min` tokens_that_fit size)%nat).
  { rewrite Hlen in Hcur. apply cursor_at_inj in Hcur; lia. }
  rewrite run_stores_snoc by lia.
  rewrite Htext by lia. change (take (Z.to_nat 0) buf) with (@nil ascii).
  rewrite app_nil_l.
  replace (take (tokens_that_fit size) (captured t)) with (take k (captured t)).
  2:{ rewrite Hexact, Nat.min_comm, <- take_take.
      rewrite <- length_captured, firstn_all. reflexivity. }
  unfold hex_text. rewrite <- loop_text_join. apply c_str_terminated.
  apply loop_text_no_NUL.
  apply Forall_map. apply Forall_forall. intros a _. apply hex64_no_NUL.
Qed.

(** [StringifyToHex] writes the tokens of as many captured frames as fit,
    [tokens_that_fit size] at most, and the terminator behind them. *)
Lemma StringifyToHex_writes_what_fits t size :
  1 <= size ->
  forall buf, Z.of_nat (length buf) = size ->
    c_str (run_stores (StringifyToHex t size) buf)
    = Some (hex_text (take (tokens_that_fit size) (captured t))) /\
    (length (take (tokens_that_fit size) (captured t))
     = Z.to_nat (num_frames_ t) `min` tokens_that_fit size)%nat.
Proof. exact (StringifyToHex_loop_exact t size). Qed.

Lemma loop_text_app toks1 : forall i toks2,
  0 <= i ->
  loop_text i (toks1 ++ toks2)
  = loop_text i toks1 ++ loop_text (i + Z.of_nat (length toks1)) toks2.
Proof.
  induction toks1 as [|tok toks1 IH]; intros i toks2 Hi.
  - cbn. rewrite Z.add_0_r. reflexivity.
  - cbn [app loop_text length]. rewrite IH by lia.
    replace (i + Z.of_nat (S (length toks1)))
      with (i + 1 + Z.of_nat (length toks1)) by lia.
    rewrite <- !app_assoc. reflexivity.
Qed.

(** The text of the first [k] addresses is the beginning of the text of
    all of them. *)
Lemma hex_text_prefix k addrs :
  exists rest, hex_text addrs = hex_text (take k addrs) ++ rest.
Proof.
  exists (loop_text (0 + Z.of_nat (length (map hex64 (take k addrs))))
                    (map hex64 (drop k addrs))).
  unfold hex_text. rewrite <- !loop_text_join.
  rewrite <- (take_drop k addrs) at 1.
  rewrite map_app. apply loop_text_app. lia.
Qed.

Lemma tokens_that_fit_mono size1 size2 :
  size1 <= size2 -> (tokens_that_fit size1 <= tokens_that_fit size2)%nat.
Proof.
  intros Hle. unfold tokens_that_fit, kHexEntryLength.
  destruct (Z.leb_spec size1 (16 + 2)); destruct (Z.leb_spec size2 (16 + 2));
    try lia.
  apply Z2Nat.inj_le.
  - pose proof (Z.div_pos (size1 - 16 - 2) (16 + 1) ltac:(lia) ltac:(lia)). lia.
  - pose proof (Z.div_pos (size2 - 16 - 2) (16 + 1) ltac:(lia) ltac:(lia)). lia.
  - apply Z.add_le_mono_r, Z.div_le_mono; lia.
Qed.

(** Truncation cuts between tokens and from the end only: what
    [StringifyToHex] leaves in a smaller destination is the beginning of what
    it leaves in a larger one, which is the beginning of the text of all
    captured frames. *)
Lemma StringifyToHex_truncates_to_a_prefix t size1 size2 :
  1 <= size1 -> size1 <= size2 ->
  forall buf1 buf2,
    Z.of_nat (length buf1) = size1 -> Z.of_nat (length buf2) = size2 ->
    exists text1 more rest,
      c_str (run_stores (StringifyToHex t size1) buf1) = Some text1 /\
      c_str (run_stores (StringifyToHex t size2) buf2) = Some (text1 ++ more) /\
      hex_text (captured t) = text1 ++ more ++ rest.
Proof.
  intros Hsize Hle buf1 buf2 Hbuf1 Hbuf2.
  destruct (StringifyToHex_loop_exact t size1 Hsize buf1 Hbuf1) as [H1 _].
  destruct (StringifyToHex_loop_exact t size2 ltac:(lia) buf2 Hbuf2) as [H2 _].
  pose proof (tokens_that_fit_mono size1 size2 Hle) as Hmono.
  destruct (hex_text_prefix (tokens_that_fit size1)
              (take (tokens_that_fit size2) (captured t))) as [more Hmore].
  rewrite take_take in Hmore.
  replace (tokens_that_fit size1 `min` tokens_that_fit size2)%nat
    with (tokens_that_fit size1) in Hmore by lia.
  destruct (hex_text_prefix (tokens_that_fit size2) (captured t)) as [rest Hrest].
  exists (hex_text (take (tokens_that_fit size1) (captured t))), more, rest.
  split; [exact H1|]. split.
  - rewrite H2, Hmore. reflexivity.
  - rewrite Hrest, Hmore, <- app_assoc. reflexivity.
Qed.

(** The array of [ToHexString] has room for [kMaxFrames] tokens, unless
    [kMaxFrames] is 1: the loop wants [kHexEntryLength + 2] bytes free before
    a token, and an array of 18 bytes never has them. *)
Lemma tokens_that_fit_local_array :
  tokens_that_fit (Z.pos kMaxFrames * (kHexEntryLength + 1) + 1)
  = if (kMaxFrames =? 1)%positive then 0%nat else Pos.to_nat kMaxFrames.
Proof.
  unfold tokens_that_fit, kHexEntryLength.
  destruct (Pos.eqb_spec kMaxFrames 1) as [->|Hne]; [reflexivity|].
  destruct (Z.leb_spec (Z.pos kMaxFrames * (16 + 1) + 1) (16 + 2)); [lia|].
  replace (Z.pos kMaxFrames * (16 + 1) + 1 - 16 - 2)
    with ((Z.pos kMaxFrames - 1) * (16 + 1)) by lia.
  rewrite Z.div_mul by lia. lia.
Qed.

(** [ToHexString] returns the tokens of all captured frames when
    [kMaxFrames] is at least 2 and the count of the trace is within the
    array; with [kMaxFrames = 1] it returns the empty text whatever the trace
    holds. *)
Lemma ToHexString_writes_all_frames t :
  (forall junk,
     ToHexString t junk
     = Some (string_of_list_ascii
               (hex_text (take (if (kMaxFrames =? 1)%positive then 0%nat
                                else Pos.to_nat kMaxFrames) (captured t))))) /\
  (kMaxFrames <> 1%positive -> num_frames_ t <= Z.pos kMaxFrames ->
   forall junk,
     ToHexString t junk = Some (string_of_list_ascii (hex_text (captured t)))) /\
  (kMaxFrames = 1%positive ->
   forall junk, ToHexString t junk = Some ""%string).
Proof.
  assert (Hall : forall junk,
     ToHexString t junk
     = Some (string_of_list_ascii
               (hex_text (take (if (kMaxFrames =? 1)%positive then 0%nat
                                else Pos.to_nat kMaxFrames) (captured t))))).
  { intros junk. unfold ToHexString.
    destruct (StringifyToHex_loop_exact t _ ToHexString_size
                (resize (Z.to_nat (Z.pos kMaxFrames * (kHexEntryLength + 1) + 1))
                        NUL junk)) as [Htext _].
    { rewrite length_resize. apply Z2Nat.id. pose proof ToHexString_size. lia. }
    rewrite Htext, tokens_that_fit_local_array. reflexivity. }
  split; [exact Hall|]. split.
  - intros Hne Hnum junk. rewrite Hall.
    destruct (Pos.eqb_spec kMaxFrames 1) as [E|_]; [contradiction|].
    rewrite firstn_all2; [reflexivity|]. rewrite length_captured. lia.
  - intros -> junk. rewrite Hall. reflexivity.
Qed.

(** ** What a capture hands to the formatters *)

(** [Symbolize] reads the captured frames and nothing else of the trace. *)
Lemma Symbolize_traced_of_captured t :
  Symbolize_traced t
  = (cat (map (fun pc => frame_line pc (symbol_for pc)) (captured t)),
     map char_ptr_minus_1 (captured t)).
Proof.
  unfold Symbolize_traced. rewrite Symbolize_loop_effect by lia.
  cbv zeta. rewrite Z.sub_0_r, Nat.min_id. reflexivity.
Qed.

Lemma nth_prefix (got rest : list Z) :
  map (fun i => nth (Z.to_nat (Z.of_nat i)) (got ++ rest) 0) (seq 0 (length got))
  = got.
Proof.
  induction got as [|a got IH]; [reflexivity|].
  cbn [length]. rewrite <- cons_seq, <- seq_shift, map_cons, map_map.
  f_equal. etransitivity; [|exact IH]. apply map_ext. intros i.
  rewrite !Nat2Z.id. reflexivity.
Qed.

(** What [Collect] leaves in the trace. *)
Lemma Collect_effect max_frames callstack skip_frames t :
  captured (Collect max_frames callstack skip_frames t)
  = take (Z.to_nat max_frames) (drop (Z.to_nat skip_frames) callstack) /\
  0 <= num_frames_ (Collect max_frames callstack skip_frames t)
    <= Z.max 0 max_frames /\
  (length (frames_ t) = Z.to_nat max_frames ->
   length (frames_ (Collect max_frames callstack skip_frames t))
   = length (frames_ t)) /\
  drop (Z.to_nat (num_frames_ (Collect max_frames callstack skip_frames t)))
       (frames_ (Collect max_frames callstack skip_frames t))
  = drop (Z.to_nat (num_frames_ (Collect max_frames callstack skip_frames t)))
         (frames_ t) /\
  (forall t',
     Symbolize (Collect max_frames callstack skip_frames t)
     = Symbolize (Collect max_frames callstack skip_frames t')).
Proof.
  assert (Hcap : forall u,
    captured (Collect max_frames callstack skip_frames u)
    = take (Z.to_nat max_frames) (drop (Z.to_nat skip_frames) callstack)).
  { intros u. unfold captured, Collect, frame_at. cbn [num_frames_ frames_].
    rewrite Nat2Z.id. apply nth_prefix. }
  unfold Collect, google_GetStackTrace in *. cbn [num_frames_ frames_].
  set (got := take (Z.to_nat max_frames) (drop (Z.to_nat skip_frames) callstack))
    in *.
  assert (Hgot : (length got <= Z.to_nat max_frames)%nat)
    by (unfold got; rewrite length_take; lia).
  split; [apply Hcap|]. split; [lia|]. split; [|split].
  - intros Hlen. rewrite length_app, length_drop. lia.
  - rewrite Nat2Z.id, drop_app_length. reflexivity.
  - intros t'. unfold Symbolize.
    rewrite !Symbolize_traced_of_captured, (Hcap t), (Hcap t'). reflexivity.
Qed.

(** [Collect] records the frames the stack walker returns: the call stack
    without its first [skip_frames], cut to [max_frames]. The count is that of
    the recorded frames, the array keeps its length, and the entries behind
    the count keep their old values, which [captured] does not show. *)
Lemma Collect_records_the_walk max_frames callstack skip_frames t :
  captured (Collect max_frames callstack skip_frames t)
  = take (Z.to_nat max_frames) (drop (Z.to_nat skip_frames) callstack) /\
  0 <= num_frames_ (Collect max_frames callstack skip_frames t)
    <= Z.max 0 max_frames /\
  (length (frames_ t) = Z.to_nat max_frames ->
   length (frames_ (Collect max_frames callstack skip_frames t))
   = length (frames_ t)) /\
  drop (Z.to_nat (num_frames_ (Collect max_frames callstack skip_frames t)))
       (frames_ (Collect max_frames callstack skip_frames t))
  = drop (Z.to_nat (num_frames_ (Collect max_frames callstack skip_frames t)))
         (frames_ t) /\
  (forall t',
     Symbolize (Collect max_frames callstack skip_frames t)
     = Symbolize (Collect max_frames callstack skip_frames t')).
Proof. exact (Collect_effect max_frames callstack skip_frames t). Qed.

(** [GetStackTraceHex] returns the tokens of the caller's frames, the
    innermost one skipped: [kMaxFrames] of them at most, and 60 at most, which
    is what its 1024 bytes hold. *)
Lemma GetStackTraceHex_text callstack junk :
  GetStackTraceHex callstack junk
  = Some (string_of_list_ascii
            (hex_text (take 60 (take (Pos.to_nat kMaxFrames) (drop 1 callstack))))).
Proof.
  unfold GetStackTraceHex, HexStackTraceToString.
  set (trace := Collect (Z.pos kMaxFrames) callstack 1 _).
  destruct (StringifyToHex_loop_exact trace 1024 ltac:(lia)
              (resize 1024 NUL junk)) as [Htext _].
  { rewrite length_resize. reflexivity. }
  rewrite Htext.
  destruct (Collect_effect (Z.pos kMaxFrames) callstack 1
              {| num_frames_ := 0; frames_ := repeat 0 (Pos.to_nat kMaxFrames) |})
    as [Hcap _].
  fold trace in Hcap. rewrite Hcap. reflexivity.
Qed.

(* ===================================================================== *)
(** * Further facts about Part III                                        *)
(* ===================================================================== *)

(** ** A call run from start to end *)

Lemma run_cons a sched p : run (a :: sched) p = run sched (step a p).
Proof. reflexivity. Qed.

Lemma run_app sched1 sched2 p :
  run (sched1 ++ sched2) p = run sched2 (run sched1 p).
Proof. unfold run. apply fold_left_app. Qed.

(** Executes the first action of the schedule in [H : q = run sched p],
    where [p] is given by its fields and the thread table by its updates. *)
Ltac lookups H :=
  repeat first
    [ rewrite fn_lookup_insert in H
    | rewrite fn_lookup_insert_ne in H by congruence ].

Ltac lookups_goal :=
  repeat first
    [ rewrite fn_lookup_insert
    | rewrite fn_lookup_insert_ne by congruence ].

Ltac tick H :=
  rewrite run_cons in H; unfold step in H;
  repeat progress
    (cbn -[Symbolize Collect run] in H;
     cbv beta iota delta
         [set_thread set_comm set_mutex set_initialized set_pending crash
          set_lock set_target_tid set_stack set_result_ready post_signal] in H;
     cbn -[Symbolize Collect run] in H;
     lookups H;
     repeat match goal with
     | E : _ _ = mkThread _ _ |- _ => rewrite E in H
     | E : tgkill_result _ = _ |- _ => rewrite E in H
     | E : signal_result _ = _ |- _ => rewrite E in H
     | E : (_ =? _) = _ |- _ => rewrite E in H
     | E : (_ <? _) = _ |- _ => rewrite E in H
     end;
     rewrite ?Z.eqb_refl, ?Pos.eqb_refl in H).

(** A dump of a thread that handles the signal in time, with nothing else
    going on: the caller sets the target and sends the signal, the handler on
    the target collects and publishes, and the caller returns the symbolized
    stack that the handler collected, leaving the process quiet again. The
    target may be the caller itself. *)
Lemma DumpThreadStack_of_responsive_thread p me tgt r :
  quiet p ->
  handler (threads p me) = None -> not_calling (dumper (threads p me)) = true ->
  handler (threads p tgt) = None ->
  tgkill_result r = 0 -> signal_result r = 0 ->
  let q := run (Call me (Z.pos tgt) :: solo me r 7
                ++ Deliver tgt :: solo tgt r 5 ++ solo me r 8) p in
  dumper (threads q me)
  = DReturned (Symbolize (Collect (Z.pos kMaxFrames) (callstack r) 2
                                  (stack (g_comm p)))) /\
  quiet q /\ handler (threads q me) = None /\ handler (threads q tgt) = None /\
  pending q tgt = false /\
  stack (g_comm q) = Collect (Z.pos kMaxFrames) (callstack r) 2 (stack (g_comm p)).
Proof.
  intros (Hf & Hm & Hl & Ht & Hr) Hh Hn Hht Hkill Hsig q.
  remember q as q' eqn:Hq. unfold q in Hq. clear q.
  destruct p as [[st tg rr lk] m ini pend th f]. cbn in Hf, Hm, Hl, Ht, Hr, Hh, Hn, Hht.
  subst f m lk tg rr. cbn [solo repeat app] in Hq.
  destruct (th me) as [d h] eqn:Eme. cbn in Hh, Hn. subst h.
  assert (Hcall : step (Call me (Z.pos tgt))
                    (mkProcess (mkComm st 0 0 0) false ini pend th None)
                  = mkProcess (mkComm st 0 0 0) false ini pend
                              (<[me := mkThread (DMutex (Z.pos tgt)) None]> th) None).
  { unfold step. cbn. rewrite Eme. destruct d; try discriminate Hn; reflexivity. }
  rewrite run_cons, Hcall in Hq. clear Hcall.
  destruct (Pos.eq_dec tgt me) as [->|Hne].
  - clear Hht. destruct ini; repeat tick Hq; subst q';
      cbn -[Symbolize Collect]; lookups_goal; unfold quiet; cbn -[Symbolize Collect]; auto 10.
  - destruct (th tgt) as [dt ht] eqn:Etgt. cbn in Hht. subst ht.
    destruct ini; repeat tick Hq; subst q';
      cbn -[Symbolize Collect]; lookups_goal; unfold quiet; cbn -[Symbolize Collect]; auto 10.
Qed.

Lemma solo_add me r n m : solo me r (n + m) = solo me r n ++ solo me r m.
Proof. unfold solo. apply repeat_app. Qed.

(** The polling loop of lines 144-148 with no result arriving: from the
    load of iteration [i], [n] sleeps and loads later the thread stands at the
    load of iteration [i + n]. Nothing but the counter changes. *)
Lemma polling_continues n : forall p me r tid i,
  fatal p = None -> handler (threads p me) = None ->
  dumper (threads p me) = DPoll tid i -> result_ready (g_comm p) = 0 ->
  0 <= i -> i + Z.of_nat n <= 100 ->
  let q := run (solo me r (2 * n)) p in
  fatal q = None /\ g_comm q = g_comm p /\
  dumper_thread_lock_ q = dumper_thread_lock_ p /\
  initialized q = initialized p /\ pending q = pending p /\
  threads q me = mkThread (DPoll tid (i + Z.of_nat n)) None /\
  forall x, x <> me -> threads q x = threads p x.
Proof.
  induction n as [|n IH]; intros p me r tid i Hf Hh Hd Hr Hi Hn; cbv zeta.
  - cbn. destruct (threads p me) as [d h]. cbn in Hh, Hd. subst d h.
    rewrite Z.add_0_r. auto 10.
  - replace (2 * S n)%nat with (S (S (2 * n))) by lia.
    cbn [solo repeat]. fold (solo me r (2 * n)).
    rewrite !run_cons.
    remember (step (Exec me r) (step (Exec me r) p)) as p2 eqn:Hp2.
    change (step (Exec me r) (step (Exec me r) p))
      with (run [Exec me r; Exec me r] p) in Hp2.
    destruct p as [[st tg rr lk] m ini pend th f]. cbn in Hf, Hh, Hd, Hr.
    subst f rr. destruct (th me) as [d h] eqn:Eme. cbn in Hh, Hd. subst d h.
    assert (Hlt : (i <? 100) = true) by (apply Z.ltb_lt; lia).
    do 2 tick Hp2. cbn [run fold_left] in Hp2.
    specialize (IH p2 me r tid (i + 1)).
    subst p2. cbn in IH. lookups IH.
    destruct (IH eq_refl eq_refl eq_refl eq_refl ltac:(lia) ltac:(lia))
      as (Hf' & Hc' & Hm' & Hi' & Hp' & Hme' & Hoth').
    cbn. repeat (split; [assumption|]). split.
    + rewrite Hme'. do 2 f_equal. lia.
    + intros x Hx. rewrite (Hoth' x Hx).
      rewrite !fn_lookup_insert_ne by congruence. reflexivity.
Qed.

(** Lines 104-129 with nothing else going on, from an idle process: the
    caller takes the mutex, installs the handler if need be, sets the target,
    sends the signal and stands at the first load of the polling loop. *)
Lemma DumpThreadStack_sends_the_signal p me tid r :
  idle p ->
  handler (threads p me) = None -> not_calling (dumper (threads p me)) = true ->
  tgkill_result r = 0 -> signal_result r = 0 ->
  let q := run (Call me tid :: solo me r 7) p in
  fatal q = None /\ g_comm q = set_target_tid tid (g_comm p) /\
  dumper_thread_lock_ q = true /\ initialized q = true /\
  threads q me = mkThread (DPoll tid 0) None /\
  forall x, tid = Z.pos x -> pending q x = true.
Proof.
  intros (Hf & Hm & Hl & Ht) Hh Hn Hkill Hsig q.
  remember q as q' eqn:Hq. unfold q in Hq. clear q.
  destruct p as [[st tg rr lk] m ini pend th f]. cbn in Hf, Hm, Hl, Ht, Hh, Hn.
  subst f m lk tg. cbn [solo repeat app] in Hq.
  destruct (th me) as [d h] eqn:Eme. cbn in Hh, Hn. subst h.
  assert (Hcall : step (Call me tid)
                    (mkProcess (mkComm st 0 rr 0) false ini pend th None)
                  = mkProcess (mkComm st 0 rr 0) false ini pend
                              (<[me := mkThread (DMutex tid) None]> th) None).
  { unfold step. cbn. rewrite Eme. destruct d; try discriminate Hn; reflexivity. }
  rewrite run_cons, Hcall in Hq. clear Hcall.
  destruct ini, tid as [|t|t]; repeat tick Hq; subst q';
    cbn; lookups_goal; repeat (split; [reflexivity|]);
    intros x Hx; try discriminate Hx;
    injection Hx as <-; apply fn_lookup_insert.
Qed.

(** Lines 143-163 with nothing else going on, once the polling loop is
    over, be it for a result or for the hundredth sleep: the caller takes the
    lock, reads [result_ready] and the stack, resets both fields and
    returns. *)
Lemma DumpThreadStack_reads_the_result p me tid i r :
  fatal p = None -> handler (threads p me) = None ->
  dumper (threads p me) = DPoll tid i ->
  lock (g_comm p) = 0 -> target_tid (g_comm p) = tid ->
  result_ready (g_comm p) <> 0 \/ i = 100 ->
  let q := run (solo me r 8) p in
  threads q me
  = mkThread (DReturned (if result_ready (g_comm p) =? 0 then no_response_text
                         else Symbolize (stack (g_comm p)))) None /\
  fatal q = None /\ g_comm q = mkComm (stack (g_comm p)) 0 0 0 /\
  dumper_thread_lock_ q = false /\ initialized q = initialized p /\
  pending q = pending p.
Proof.
  intros Hf Hh Hd Hl Ht Hover q.
  remember q as q' eqn:Hq. unfold q in Hq. clear q.
  destruct p as [[st tg rr lk] m ini pend th f]. cbn in Hf, Hh, Hd, Hl, Ht, Hover.
  subst f lk tg. cbn [solo repeat] in Hq.
  destruct (th me) as [d h] eqn:Eme. cbn in Hh, Hd. subst d h.
  cbn [g_comm result_ready stack initialized pending].
  destruct (rr =? 0) eqn:E.
  - apply Z.eqb_eq in E. subst rr. destruct Hover as [Hne| ->]; [contradiction|].
    repeat tick Hq. subst q'. cbn. lookups_goal. auto 10.
  - repeat tick Hq. subst q'. cbn -[Symbolize]. lookups_goal. auto 10.
Qed.

(** A dump of a thread that never handles the signal, with nothing else
    going on, from an idle process. With [result_ready] 0 at the start, the
    caller stands at the load of [result_ready] with [i = k] after [7 + 2 k]
    instructions, for [k] from 0 to 100, and sleeps with [i = k + 1] after
    the loads with [k < 100]: 101 loads and 100 sleeps; it returns the text of
    line 155 after 215 instructions in all. With [result_ready] not 0 at the
    start, left so by the exit of lines 130-134, the first load ends the loop
    and the caller returns, after 15 instructions, the symbolized trace that
    [g_comm] still holds. Either way the process is quiet afterwards, and the
    signal is still pending for the target. *)
Lemma DumpThreadStack_of_silent_thread p me tid r :
  idle p ->
  handler (threads p me) = None -> not_calling (dumper (threads p me)) = true ->
  tgkill_result r = 0 -> signal_result r = 0 ->
  (result_ready (g_comm p) = 0 ->
   (forall k, (k <= 100)%nat ->
      dumper (threads (run (Call me tid :: solo me r (7 + 2 * k)) p) me)
      = DPoll tid (Z.of_nat k)) /\
   (forall k, (k < 100)%nat ->
      dumper (threads (run (Call me tid :: solo me r (8 + 2 * k)) p) me)
      = DSleep tid (Z.of_nat k + 1)) /\
   let q := run (Call me tid :: solo me r 215) p in
   dumper (threads q me) = DReturned no_response_text /\
   quiet q /\ handler (threads q me) = None /\
   stack (g_comm q) = stack (g_comm p) /\
   (forall x, tid = Z.pos x -> pending q x = true)) /\
  (result_ready (g_comm p) <> 0 ->
   let q := run (Call me tid :: solo me r 15) p in
   dumper (threads q me) = DReturned (Symbolize (stack (g_comm p))) /\
   quiet q /\ handler (threads q me) = None /\
   stack (g_comm q) = stack (g_comm p) /\
   (forall x, tid = Z.pos x -> pending q x = true)).
Proof.
  intros Hidle Hh Hn Hkill Hsig.
  pose proof (DumpThreadStack_sends_the_signal p me tid r Hidle Hh Hn Hkill Hsig)
    as H1.
  cbv zeta in H1.
  assert (Hsplit : forall m,
            run (Call me tid :: solo me r (7 + m)) p
            = run (solo me r m) (run (Call me tid :: solo me r 7) p)).
  { intros m. rewrite solo_add, app_comm_cons, run_app. reflexivity. }
  set (p1 := run (Call me tid :: solo me r 7) p) in *.
  destruct H1 as (Hf1 & Hc1 & Hm1 & Hi1 & Hme1 & Hpend1).
  assert (Hh1 : handler (threads p1 me) = None) by (rewrite Hme1; reflexivity).
  assert (Hd1 : dumper (threads p1 me) = DPoll tid 0) by (rewrite Hme1; reflexivity).
  assert (Hl1 : lock (g_comm p1) = 0)
    by (rewrite Hc1; destruct Hidle as (_ & _ & Hl & _); exact Hl).
  assert (Ht1 : target_tid (g_comm p1) = tid) by (rewrite Hc1; reflexivity).
  assert (Hr1 : result_ready (g_comm p1) = result_ready (g_comm p))
    by (rewrite Hc1; reflexivity).
  assert (Hs1 : stack (g_comm p1) = stack (g_comm p))
    by (rewrite Hc1; reflexivity).
  split.
  - intros Hr0. rewrite Hr0 in Hr1.
    assert (Hloop : forall k, (k <= 100)%nat ->
              let p2 := run (solo me r (2 * k)) p1 in
              fatal p2 = None /\ g_comm p2 = g_comm p1 /\
              dumper_thread_lock_ p2 = true /\ pending p2 = pending p1 /\
              threads p2 me = mkThread (DPoll tid (Z.of_nat k)) None).
    { intros k Hk.
      destruct (polling_continues k p1 me r tid 0 Hf1 Hh1 Hd1 Hr1
                  ltac:(lia) ltac:(lia))
        as (Hf2 & Hc2 & Hm2 & _ & Hp2 & Hme2 & _).
      cbv zeta. rewrite Hm2, Hme2. auto 10. }
    split; [|split].
    + intros k Hk. rewrite Hsplit.
      destruct (Hloop k Hk) as (_ & _ & _ & _ & Hme2). rewrite Hme2. reflexivity.
    + intros k Hk.
      replace (8 + 2 * k)%nat with (7 + (2 * k + 1))%nat by lia.
      rewrite Hsplit, solo_add, run_app.
      destruct (Hloop k ltac:(lia)) as (Hf2 & Hc2 & _ & _ & Hme2).
      set (p2 := run (solo me r (2 * k)) p1) in *.
      change (run (solo me r 1) p2) with (step (Exec me r) p2).
      destruct (exec_dumper p2 me r (DPoll tid (Z.of_nat k)) Hf2)
        as (Hpc & _); [rewrite Hme2; reflexivity..|].
      rewrite Hpc. cbn [DumpThreadStack_step].
      rewrite Hc2, Hr1. cbn [Z.eqb negb].
      replace (Z.of_nat k <? 100) with true by (symmetry; apply Z.ltb_lt; lia).
      reflexivity.
    + cbv zeta.
      replace 215%nat with (7 + (2 * 100 + 8))%nat by reflexivity.
      rewrite Hsplit, solo_add, run_app.
      destruct (Hloop 100%nat ltac:(lia)) as (Hf2 & Hc2 & Hm2 & Hp2 & Hme2).
      set (p2 := run (solo me r (2 * 100)) p1) in *.
      destruct (DumpThreadStack_reads_the_result p2 me tid 100 r Hf2)
        as (Hme3 & Hf3 & Hc3 & Hm3 & _ & Hp3);
        [rewrite Hme2; reflexivity|rewrite Hme2; reflexivity
        |rewrite Hc2; exact Hl1|rewrite Hc2; exact Ht1|right; reflexivity|].
      rewrite Hme3, Hc3, Hc2, Hr1, Hs1. cbn [dumper handler Z.eqb stack].
      split; [reflexivity|]. split; [|split; [reflexivity|split; [reflexivity|]]].
      * unfold quiet. rewrite Hf3, Hm3, Hc3. cbn. auto.
      * intros x Hx. rewrite Hp3, Hp2. apply Hpend1, Hx.
  - intros Hstale. cbv zeta.
    replace 15%nat with (7 + 8)%nat by reflexivity. rewrite Hsplit.
    destruct (DumpThreadStack_reads_the_result p1 me tid 0 r Hf1 Hh1 Hd1 Hl1 Ht1)
      as (Hme3 & Hf3 & Hc3 & Hm3 & _ & Hp3); [left; congruence|].
    rewrite Hme3, Hc3, Hr1, Hs1. cbn [dumper handler stack].
    replace (result_ready (g_comm p) =? 0) with false
      by (symmetry; apply Z.eqb_neq; exact Hstale).
    split; [reflexivity|]. split; [|split; [reflexivity|split; [reflexivity|]]].
    + unfold quiet. rewrite Hf3, Hm3, Hc3. cbn. auto.
    + intros x Hx. rewrite Hp3. apply Hpend1, Hx.
Qed.

(** A dump whose [tgkill] fails, with nothing else going on, from an idle
    process: the caller takes the target back and returns the text of line 134
    after eleven instructions. It leaves the mutex and the lock free and
    [g_comm] as it found it, [result_ready] included, which this exit never
    writes; the pending signals are as they were. *)
Lemma DumpThreadStack_of_missing_thread p me tid r :
  idle p ->
  handler (threads p me) = None -> not_calling (dumper (threads p me)) = true ->
  tgkill_result r <> 0 -> signal_result r = 0 ->
  let q := run (Call me tid :: solo me r 11) p in
  dumper (threads q me) = DReturned undelivered_text /\
  idle q /\ handler (threads q me) = None /\
  g_comm q = g_comm p /\ result_ready (g_comm q) = result_ready (g_comm p) /\
  stack (g_comm q) = stack (g_comm p) /\ pending q = pending p /\
  (quiet p -> quiet q).
Proof.
  intros (Hf & Hm & Hl & Ht) Hh Hn Hkill Hsig q.
  remember q as q' eqn:Hq. unfold q in Hq. clear q.
  apply Z.eqb_neq in Hkill.
  destruct p as [[st tg rr lk] m ini pend th f]. cbn in Hf, Hm, Hl, Ht, Hh, Hn.
  subst f m lk tg. cbn [solo repeat app] in Hq.
  destruct (th me) as [d h] eqn:Eme. cbn in Hh, Hn. subst h.
  assert (Hcall : step (Call me tid)
                    (mkProcess (mkComm st 0 rr 0) false ini pend th None)
                  = mkProcess (mkComm st 0 rr 0) false ini pend
                              (<[me := mkThread (DMutex tid) None]> th) None).
  { unfold step. cbn. rewrite Eme. destruct d; try discriminate Hn; reflexivity. }
  rewrite run_cons, Hcall in Hq. clear Hcall.
  destruct ini; repeat tick Hq; subst q';
    cbn; lookups_goal; unfold idle, quiet; cbn; auto 12.
Qed.

(** ** The trace in [g_comm] *)

Lemma Collect_well_formed callstack skip_frames t :
  well_formed t -> well_formed (Collect (Z.pos kMaxFrames) callstack skip_frames t).
Proof.
  intros [Hnum Hlen].
  destruct (Collect_effect (Z.pos kMaxFrames) callstack skip_frames t)
    as (_ & Hcount & Hkeep & _).
  split; [lia|]. rewrite Hkeep; [exact Hlen|]. rewrite Hlen. lia.
Qed.

Lemma step_stack_well_formed a p :
  well_formed (stack (g_comm p)) -> well_formed (stack (g_comm (step a p))).
Proof.
  step_cases a p me Hd Hh; intros Hwf; look; try exact Hwf.
  apply Collect_well_formed, Hwf.
Qed.

Lemma run_stack_well_formed sched : forall p,
  well_formed (stack (g_comm p)) -> well_formed (stack (g_comm (run sched p))).
Proof.
  induction sched as [|a sched IH]; intros p Hp; [exact Hp|].
  apply IH, step_stack_well_formed, Hp.
Qed.

Lemma captured_is_prefix t :
  (Z.to_nat (num_frames_ t) <= length (frames_ t))%nat ->
  captured t = take (Z.to_nat (num_frames_ t)) (frames_ t).
Proof.
  intros Hle. unfold captured, frame_at.
  pose proof (nth_prefix (take (Z.to_nat (num_frames_ t)) (frames_ t))
                         (drop (Z.to_nat (num_frames_ t)) (frames_ t))) as Hp.
  rewrite take_drop, length_take in Hp.
  replace (Z.to_nat (num_frames_ t) `min` length (frames_ t))%nat
    with (Z.to_nat (num_frames_ t)) in Hp by lia.
  exact Hp.
Qed.

(** The trace in [g_comm] is well formed at every moment: its count is
    between 0 and [kMaxFrames], the length of its array. So the loops of
    [Symbolize] and [StringifyToHex], which run up to the count, read entries
    of the array only, and what they read is its first [num_frames_]
    entries. *)
Lemma stack_stays_well_formed sched :
  let t := stack (g_comm (run sched boot)) in
  well_formed t /\
  (forall i, 0 <= i < num_frames_ t -> (Z.to_nat i < length (frames_ t))%nat) /\
  captured t = take (Z.to_nat (num_frames_ t)) (frames_ t).
Proof.
  cbv zeta.
  assert (Hwf : well_formed (stack (g_comm (run sched boot)))).
  { apply run_stack_well_formed. split; cbn; [lia|apply repeat_length]. }
  split; [exact Hwf|]. destruct Hwf as [Hnum Hlen]. split.
  - intros i Hi. lia.
  - apply captured_is_prefix. lia.
Qed.

(** ** What can end the process *)

Lemma installed_means_alive_step a p :
  coherent p ->
  (initialized p = true -> fatal p = None) ->
  initialized (step a p) = true -> fatal (step a p) = None.
Proof.
  intros H Hinv.
  destruct (initialized p) eqn:Hinit.
  - intros _. apply alive_step; auto.
  - clear Hinv. revert Hinit.
    step_cases a p me Hd Hh; intros Hinit; look; congruence.
Qed.

Lemma installed_means_alive_run sched : forall p,
  coherent p ->
  (initialized p = true -> fatal p = None) ->
  initialized (run sched p) = true -> fatal (run sched p) = None.
Proof.
  induction sched as [|a sched IH]; intros p H Hp; [exact Hp|].
  apply IH; [apply coherent_step, H|].
  apply installed_means_alive_step; assumption.
Qed.

(** Neither [CHECK_EQ] of [DumpThreadStack] ever fails. The process can end
    only before the handler is installed: by the [PCHECK] of line 114, or by a
    SIGUSR1 that still has its default action. Once [initialized] is set,
    nothing ends the process any more. *)
Lemma process_ends_only_before_install sched :
  let p := run sched boot in
  fatal p <> Some SessionActive /\ fatal p <> Some TargetChanged /\
  (initialized p = true -> fatal p = None) /\
  (initialized p = true ->
   forall sched', fatal (run sched' p) = None /\ initialized (run sched' p) = true).
Proof.
  cbv zeta. pose proof (coherent_run sched boot coherent_boot) as H.
  destruct (checks_pass _ H) as [Hs Ht].
  assert (Hinv : initialized (run sched boot) = true -> fatal (run sched boot) = None).
  { apply (installed_means_alive_run sched boot coherent_boot). cbn. discriminate. }
  split; [exact Hs|]. split; [exact Ht|]. split; [exact Hinv|].
  intros Hinit sched'. apply alive_run; auto.
Qed.

(** ** The polling loop is bounded *)

Lemma poll_count_ok_closed r pc q :
  poll_count_ok pc -> poll_count_ok (fst (DumpThreadStack_step r pc q)).
Proof.
  destruct pc; cbn [DumpThreadStack_step]; intros Hok; branches;
    cbn [fst poll_count_ok] in *; try exact I; lia.
Qed.

(** In every execution the loop counter of lines 144-148 stays between 0
    and 100: a call sleeps 100 times at most. *)
Lemma polling_is_bounded sched me :
  poll_count_ok (dumper (threads (run sched boot) me)).
Proof.
  assert (Hall : forall p, poll_count_ok (dumper (threads p me)) ->
                           poll_count_ok (dumper (threads (run sched p) me))).
  { induction sched as [|a sched IH]; intros p Hp; [exact Hp|].
    apply IH.
    destruct (dumper_after_step a p me) as [E|[(r & -> & E)|(tid & ->)]].
    - rewrite E. exact Hp.
    - rewrite E. apply poll_count_ok_closed, Hp.
    - unfold step. destruct (fatal p); [exact Hp|].
      destruct (handler (threads p me)); [exact Hp|].
      destruct (dumper (threads p me)) eqn:Hd;
        try exact Hp; try (cbn; rewrite Hd; exact Hp);
        rewrite threads_set_thread_same; exact I. }
  apply Hall. exact I.
Qed.

(** ** A handler on the thread that holds the lock *)

Lemma stuck_handler_step a p me :
  coherent p ->
  handler (threads p me) = Some HLock ->
  dumper_locks (dumper (threads p me)) = true ->
  handler (threads (step a p) me) = Some HLock /\
  dumper (threads (step a p) me) = dumper (threads p me).
Proof.
  intros H Hh Hd.
  assert (Hheld : lock (g_comm p) = 1)
    by (apply (lock_bit _ H (Dumper me)); exact Hd).
  unfold step. destruct (fatal p); [auto|].
  destruct a as [x tid|x r|x|x].
  - destruct (Pos.eq_dec x me) as [->|Hne].
    + rewrite Hh. auto.
    + destruct (handler (threads p x)); [auto|].
      destruct (dumper (threads p x)); auto;
        rewrite threads_set_thread_other by congruence; auto.
  - destruct (Pos.eq_dec x me) as [->|Hne].
    + rewrite Hh. cbn [HandleStackTraceSignal_step]. rewrite Hheld. cbn.
      rewrite fn_lookup_insert. auto.
    + destruct (handler (threads p x)) as [h|].
      * destruct (HandleStackTraceSignal_step x r h (g_comm p)) as [h' c'].
        rewrite threads_set_thread_other by congruence. auto.
      * pose proof (DumpThreadStack_step_keeps_threads r (dumper (threads p x)) p)
          as Hsame.
        destruct (DumpThreadStack_step r (dumper (threads p x)) p) as [pc' p'].
        rewrite threads_set_thread_other by congruence.
        cbn [snd] in Hsame. rewrite Hsame. auto.
  - destruct (Pos.eq_dec x me) as [->|Hne].
    + rewrite Hh. auto.
    + destruct (handler (threads p x)); [auto|].
      destruct (pending p x); [|auto].
      destruct (initialized p); [|auto].
      rewrite threads_set_thread_other by congruence. auto.
  - auto.
Qed.

Lemma stuck_handler_run sched me : forall p,
  coherent p ->
  handler (threads p me) = Some HLock ->
  dumper_locks (dumper (threads p me)) = true ->
  handler (threads (run sched p) me) = Some HLock /\
  dumper (threads (run sched p) me) = dumper (threads p me).
Proof.
  induction sched as [|a sched IH]; intros p H Hh Hd; [auto|].
  destruct (stuck_handler_step a p me H Hh Hd) as [Hh1 Hd1].
  cbn [run fold_left]. fold (run sched (step a p)).
  destruct (IH (step a p) (coherent_step a p H) Hh1 ltac:(rewrite Hd1; exact Hd))
    as (Hh2 & Hd2).
  rewrite Hd2, Hd1. auto.
Qed.

(** A SIGUSR1 handled on a thread that is inside one of the lock blocks of
    [DumpThreadStack] never returns: the handler spins on the lock its own
    thread holds. Whatever runs from then on, the thread stays where it is,
    the lock stays taken and no other dumper or handler gets it. *)
Lemma handler_on_lock_holder_never_returns sched me :
  let p := run sched boot in
  handler (threads p me) = Some HLock ->
  dumper_locks (dumper (threads p me)) = true ->
  forall sched',
    let q := run sched' p in
    handler (threads q me) = Some HLock /\
    dumper (threads q me) = dumper (threads p me) /\
    lock (g_comm q) = 1 /\
    forall a, holds_lock q a = true -> a = Dumper me.
Proof.
  cbv zeta. intros Hh Hd sched'.
  pose proof (coherent_run sched boot coherent_boot) as H.
  destruct (stuck_handler_run sched' me _ H Hh Hd) as (Hh' & Hd').
  pose proof (coherent_run sched' _ H) as Hc.
  assert (Hheld : holds_lock (run sched' (run sched boot)) (Dumper me) = true)
    by (cbn; rewrite Hd'; exact Hd).
  split; [exact Hh'|]. split; [exact Hd'|].
  split; [exact (lock_bit _ Hc _ Hheld)|].
  intros a Ha. exact (lock_excludes _ Hc _ _ Ha Hheld).
Qed.

(** ** What a call can return *)

Lemma collections_app sched1 : forall sched2 p,
  collections (sched1 ++ sched2) p
  = collections sched1 p ++ collections sched2 (run sched1 p).
Proof.
  induction sched1 as [|a sched1 IH]; intros sched2 p; [reflexivity|].
  cbn [app collections]. rewrite IH, <- app_assoc. reflexivity.
Qed.

Lemma collected_in_more done more t :
  collected_in done t -> collected_in (done ++ more) t.
Proof.
  intros (x & callstack & t0 & Hin & ->). exists x, callstack, t0.
  split; [apply in_or_app; left; exact Hin|reflexivity].
Qed.

Lemma result_of_a_dump_more done more ret :
  result_of_a_dump done ret -> result_of_a_dump (done ++ more) ret.
Proof.
  intros [H|[H|(x & callstack & Hin & H)]]; [left; exact H|right; left; exact H|].
  right; right. exists x, callstack.
  split; [apply in_or_app; left; exact Hin|exact H].
Qed.

Lemma Symbolize_of_collected done t :
  collected_in done t -> result_of_a_dump done (Symbolize t).
Proof.
  intros (x & callstack & t0 & Hin & ->). right; right. exists x, callstack.
  split; [exact Hin|].
  destruct (Collect_effect (Z.pos kMaxFrames) callstack 2 t0)
    as (Hcap & _ & _ & _ & Hsame).
  split; [intros t1; apply Hsame|].
  unfold Symbolize. rewrite Symbolize_traced_of_captured. cbn [fst].
  rewrite Hcap. reflexivity.
Qed.

(** A result is published, or about to be, only behind a [Collect] of the
    execution. *)
Lemma step_published a p done :
  (result_ready (g_comm p) <> 0 -> collected_in done (stack (g_comm p))) ->
  (forall x, handler (threads p x) = Some HPublish ->
             collected_in done (stack (g_comm p))) ->
  (result_ready (g_comm (step a p)) <> 0 ->
   collected_in (done ++ collects a p) (stack (g_comm (step a p)))) /\
  (forall x, handler (threads (step a p) x) = Some HPublish ->
             collected_in (done ++ collects a p) (stack (g_comm (step a p)))).
Proof.
  unfold collects.
  step_cases a p me Hd Hh;
    try (intros Hr Hp; split;
         [ intros Hready; apply collected_in_more, Hr, Hready
         | intros x Hx; apply collected_in_more, (Hp x), Hx ]).
  all: intros Hr Hp; pose proof (Hp me) as Hme; split;
       [ intros Hready | intros x Hx; pose proof (Hp x); split_thread x me ];
       look; try discriminate; try contradiction;
       first [ eexists me, _, _;
               split; [apply in_or_app; right; left; reflexivity|reflexivity]
             | apply collected_in_more ].
  all: old_facts Hd Hh; finish.
Qed.

Lemma step_carried a p done :
  (result_ready (g_comm p) <> 0 -> collected_in done (stack (g_comm p))) ->
  (forall x ret, carried (dumper (threads p x)) = Some ret ->
                 result_of_a_dump done ret) ->
  forall x ret, carried (dumper (threads (step a p) x)) = Some ret ->
                result_of_a_dump (done ++ collects a p) ret.
Proof.
  intros Hr Hc x txt Hx. apply result_of_a_dump_more. revert Hr Hc x txt Hx.
  step_cases a p me Hd Hh; try (intros _ Hc; exact Hc).
  all: intros Hr Hc x txt Hx; pose proof (Hc me) as Hme; pose proof (Hc x txt);
       clear Hc; split_thread x me; look; try discriminate; try tauto.
  all: old_facts Hd Hh;
       try (injection Hx as <-);
       try (left; reflexivity); try (right; left; reflexivity);
       try (apply Hme; reflexivity).
  apply Symbolize_of_collected, Hr. lia.
Qed.

Lemma results_come_from_run sched : forall p done,
  results_come_from done p ->
  results_come_from (done ++ collections sched p) (run sched p).
Proof.
  induction sched as [|a sched IH]; intros p done Hp.
  - cbn. rewrite app_nil_r. exact Hp.
  - cbn [collections]. rewrite app_assoc. apply IH.
    destruct Hp as (Hr & Hpub & Hc).
    destruct (step_published a p done Hr Hpub) as [Hr' Hp'].
    split; [exact Hr'|]. split; [exact Hp'|]. apply step_carried; assumption.
Qed.

(** Whatever the threads and signals do, a call of [DumpThreadStack]
    returns one of three things: the text of line 134, the text of line 155,
    or [Symbolize] of a trace that the handler on some thread [x] stored at
    line 98 in the course of this execution, from the call stack it had
    there: one line per frame of that call stack, the two innermost frames
    left out, [kMaxFrames] lines at most. The thread [x] need not be the one
    the call named: see [stale_ready_then_session]. *)
Lemma DumpThreadStack_returns_one_of_three sched me ret :
  dumper (threads (run sched boot) me) = DReturned ret ->
  ret = undelivered_text \/ ret = no_response_text \/
  exists x callstack,
    In (x, callstack) (collections sched boot) /\
    (forall t0, ret = Symbolize (Collect (Z.pos kMaxFrames) callstack 2 t0)) /\
    ret = cat (map (fun pc => frame_line pc (symbol_for pc))
                   (take (Pos.to_nat kMaxFrames) (drop 2 callstack))).
Proof.
  intros Hd.
  assert (Hboot : results_come_from [] boot).
  { split; [|split]; cbn; try discriminate. intros Hne. contradiction. }
  destruct (results_come_from_run sched boot [] Hboot) as (_ & _ & Hc).
  apply (Hc me). rewrite Hd. reflexivity.
Qed.

(** ** Locks are given back *)

Lemma step_mutex_owner a p :
  (dumper_thread_lock_ p = true ->
   exists w, in_mutex (dumper (threads p w)) = true) ->
  dumper_thread_lock_ (step a p) = true ->
  exists w, in_mutex (dumper (threads (step a p) w)) = true.
Proof.
  step_cases a p me Hd Hh; try (intros Hold; exact Hold).
  all: intros Hold Hm; look;
       first
         [ discriminate Hm
         | exists me; look; reflexivity
         | destruct Hold as [w Hw]; [congruence|];
           exists w; split_thread w me; look;
           rewrite ?Hd in Hw; first [exact Hw | discriminate Hw] ].
Qed.

Lemma step_lock_owner a p :
  (lock (g_comm p) <> 0 -> exists b, holds_lock p b = true) ->
  lock (g_comm (step a p)) <> 0 ->
  exists b, holds_lock (step a p) b = true.
Proof.
  step_cases a p me Hd Hh; try (intros Hold; exact Hold).
  all: intros Hold Hl; look;
       first
         [ contradiction
         | exists (Dumper me); look; reflexivity
         | exists (Handler me); look; reflexivity
         | destruct Hold as [[w|w] Hw]; [first [congruence | lia]| |];
           [ exists (Dumper w) | exists (Handler w) ];
           split_thread w me; look; rewrite ?Hd, ?Hh in Hw;
           first [exact Hw | discriminate Hw] ].
Qed.

Lemma owners_run sched : forall p,
  ((dumper_thread_lock_ p = true ->
    exists w, in_mutex (dumper (threads p w)) = true) /\
   (lock (g_comm p) <> 0 -> exists b, holds_lock p b = true)) ->
  (dumper_thread_lock_ (run sched p) = true ->
   exists w, in_mutex (dumper (threads (run sched p) w)) = true) /\
  (lock (g_comm (run sched p)) <> 0 ->
   exists b, holds_lock (run sched p) b = true).
Proof.
  induction sched as [|a sched IH]; intros p Hp; [exact Hp|].
  apply IH. destruct Hp as [Hm Hl]. split.
  - apply step_mutex_owner, Hm.
  - apply step_lock_owner, Hl.
Qed.

(** Neither lock is ever left taken by nobody: while the dumper mutex is
    held some thread is inside [DumpThreadStack] between lines 108 and 163,
    and while [g_comm.lock] is not 0 it is 1 and a dumper or a handler is
    inside one of the lock blocks. So once the calls and handlers under way
    are through, the next call finds both free. *)
Lemma locks_are_given_back sched :
  let p := run sched boot in
  (dumper_thread_lock_ p = true ->
   exists w, in_mutex (dumper (threads p w)) = true) /\
  (lock (g_comm p) <> 0 ->
   lock (g_comm p) = 1 /\ exists b, holds_lock p b = true) /\
  ((forall w, in_mutex (dumper (threads p w)) = false) ->
   (forall w, handler (threads p w) = None) ->
   dumper_thread_lock_ p = false /\ lock (g_comm p) = 0 /\
   target_tid (g_comm p) = 0).
Proof.
  cbv zeta. pose proof (coherent_run sched boot coherent_boot) as H.
  assert (Hown : (dumper_thread_lock_ (run sched boot) = true ->
                  exists w, in_mutex (dumper (threads (run sched boot) w)) = true) /\
                 (lock (g_comm (run sched boot)) <> 0 ->
                  exists b, holds_lock (run sched boot) b = true)).
  { apply owners_run. split; cbn; [discriminate|contradiction]. }
  destruct Hown as [Hmutex Hlock].
  split; [exact Hmutex|]. split.
  - intros Hl. destruct (Hlock Hl) as [b Hb].
    split; [exact (lock_bit _ H b Hb)|]. exists b. exact Hb.
  - intros Hnone Hnoh.
    assert (Hfree : dumper_thread_lock_ (run sched boot) = false).
    { destruct (dumper_thread_lock_ (run sched boot)); [|reflexivity].
      destruct (Hmutex eq_refl) as [w Hw]. rewrite Hnone in Hw. discriminate. }
    split; [exact Hfree|]. split; [|exact (target_idle _ H Hfree)].
    destruct (Z.eq_dec (lock (g_comm (run sched boot))) 0) as [E|E]; [exact E|].
    destruct (Hlock E) as [[w|w] Hw]; cbn in Hw.
    + destruct (dumper (threads (run sched boot) w)) eqn:Hd;
        try discriminate Hw; pose proof (Hnone w) as Hin; rewrite Hd in Hin;
        discriminate Hin.
    + rewrite Hnoh in Hw. discriminate.
Qed.

(* ===================================================================== *)
(** * Facts about Part IV                                                 *)
(* ===================================================================== *)

Lemma ListThreads_loop_effect safe_strtou32 entries : forall tids warnings,
  ListThreads_loop safe_strtou32 entries tids warnings
  = (tids ++ omap (tid_of_entry safe_strtou32) entries,
     warnings ++ omap (warning_of_entry safe_strtou32) entries).
Proof.
  induction entries as [|d_name rest IH]; intros tids warnings.
  - cbn. rewrite !app_nil_r. reflexivity.
  - cbn [ListThreads_loop omap list_omap].
    unfold tid_of_entry at 1, warning_of_entry at 1.
    destruct (starts_with_dot d_name); cbn [negb].
    + apply IH.
    + destruct (safe_strtou32 d_name) as [tid|]; cbn [option_map];
        rewrite IH, <- app_assoc; reflexivity.
Qed.

(** [ListThreads] appends to the vector it is given, which it does not
    clear: behind the old entries come the ids of the directory entries that
    do not start with a dot and parse as a number, in directory order. An
    entry that starts with a dot is skipped silently, one that does not parse
    is skipped with a warning, and neither makes the call fail. The call
    fails only when the directory cannot be opened: it then returns the
    IOError with [errno] and leaves the vector as it was. An id below 2^31
    is stored unchanged. *)
Theorem ListThreads_appends_the_parsed_entries
    (safe_strtou32 : string -> option Z) (ErrnoToString : Z -> string)
    (errno : Z) (tids : list Z) :
  (forall entries,
     ListThreads safe_strtou32 ErrnoToString (Some entries) errno tids
     = (OK, tids ++ omap (tid_of_entry safe_strtou32) entries,
        omap (warning_of_entry safe_strtou32) entries)) /\
  (forall entries,
     (length (omap (tid_of_entry safe_strtou32) entries)
      + length (omap (warning_of_entry safe_strtou32) entries)
      <= length entries)%nat) /\
  (forall entries d_name,
     In d_name entries -> starts_with_dot d_name = false ->
     forall v, safe_strtou32 d_name = Some v ->
     In (uint32_to_pid_t v) (omap (tid_of_entry safe_strtou32) entries)) /\
  (forall dir,
     fst (fst (ListThreads safe_strtou32 ErrnoToString dir errno tids)) = OK
     <-> dir <> None) /\
  ListThreads safe_strtou32 ErrnoToString None errno tids
  = (IOError "failed to open task dir" (ErrnoToString errno) errno, tids, []) /\
  (forall v, 0 <= v < 2 ^ 31 -> uint32_to_pid_t v = v).
Proof.
  split; [|split; [|split; [|split; [|split]]]].
  - intros entries. unfold ListThreads. rewrite ListThreads_loop_effect.
    reflexivity.
  - intros entries. induction entries as [|d_name rest IH]; [cbn; lia|].
    cbn [omap list_omap length]. unfold tid_of_entry at 1, warning_of_entry at 1.
    destruct (starts_with_dot d_name); [lia|].
    destruct (safe_strtou32 d_name); cbn [option_map length]; lia.
  - intros entries d_name Hin Hdot v Hparse.
    apply list_elem_of_In, list_elem_of_omap.
    exists d_name. split; [apply list_elem_of_In, Hin|].
    unfold tid_of_entry. rewrite Hdot, Hparse. reflexivity.
  - intros [entries|]; cbn.
    + destruct (ListThreads_loop safe_strtou32 entries tids []). cbn.
      split; [discriminate|reflexivity].
    + split; [discriminate|contradiction].
  - reflexivity.
  - intros v Hv. unfold uint32_to_pid_t. rewrite Z.mod_small; lia.
Qed.

End Platform.

(* ===================================================================== *)
(** * Concrete executions                                                 *)
(* ===================================================================== *)

(** A platform to run the model on: sixteen frames per trace, a resolver
    that knows [main] at the addresses of the example in the comment of lines
    249-263, and a pointer format that prints nothing. *)
Definition demo_resolver (pc : Z) : option string :=
  if (4195392 <=? pc) && (pc <=? 4195400) then Some "main"%string else None.

Definition demo_pointer (width pc : Z) : string := ""%string.

Abbreviation demo_run := (run 16 demo_resolver demo_pointer).
Abbreviation demo_step := (step 16 demo_resolver demo_pointer).
Abbreviation demo_boot := (boot 16).

(** The operating system's answers: [tgkill] and [signal] succeed, and the
    stack walker sees four frames; or [tgkill] fails with ESRCH. *)
Definition os_ok : os_reply :=
  {| tgkill_result := 0; signal_result := 0;
     callstack := [1; 2; 4195401; 7] |}.

Definition os_no_thread : os_reply :=
  {| tgkill_result := -1; signal_result := 0; callstack := [] |}.

(** Thread [me] executes [n] instructions in a row. *)
Definition execs (me : positive) (n : nat) : list action :=
  repeat (Exec me os_ok) n.

(** Thread 1 calls [DumpThreadStack(tid)] and gets as far as the first
    load of the polling loop: the signal is sent. *)
Definition start_session (tid : Z) : list action :=
  Call 1 tid :: execs 1 7.

(** The handler runs on thread [me], from delivery to its last instruction
    but [n]. *)
Definition handler_runs (me : positive) (n : nat) : list action :=
  Deliver me :: execs me (5 - n).

(** A session on thread 2 in which the signal is not delivered in time:
    101 loads and 100 sleeps, then the third lock block and the return. *)
Definition session_times_out : list action :=
  start_session 2 ++ execs 1 201 ++ execs 1 7.

(** A trace of two frames, in an array of three. *)
Definition two_frames : StackTrace :=
  {| num_frames_ := 2; frames_ := [255; 4195401; 7] |}.


(** Thread 1 dumps thread 2, whose handler runs to the end; thread 1 then
    leaves the polling loop, takes the lock and stands at line 154. *)
Abbreviation at_the_read :=
  (demo_run (start_session 2 ++ handler_runs 2 0 ++ execs 1 3) demo_boot).

(** Thread 1 dumps thread 2, which does not respond; thread 1 stands at
    line 154 after the whole polling loop. *)
Abbreviation at_the_read_late :=
  (demo_run (start_session 2 ++ execs 1 201 ++ execs 1 2) demo_boot).

(** Thread 1 has set the target and is about to send the signal. *)
Abbreviation at_the_kill := (demo_run (Call 1 2 :: execs 1 6) demo_boot).

(** Thread 1 polls for thread 2, whose handler has published the result
    and not yet unlocked. *)
Abbreviation published_not_unlocked :=
  (demo_run (start_session 2 ++ handler_runs 2 1) demo_boot).

(** A session on thread 2 timed out; during the next session, on thread 3,
    the late signal reaches thread 2, whose handler has taken the lock. *)
Abbreviation late_signal_checked :=
  (demo_run (session_times_out ++ start_session 3 ++ [Deliver 2; Exec 2 os_ok])
            demo_boot).

(** A session on thread 2 timed out. In the next session on thread 2 the
    late signal of the first is handled once the target is set, the thread
    then exits, and [tgkill] fails. *)
Definition stale_ready : list action :=
  session_times_out
  ++ Call 1 2 :: execs 1 6
  ++ handler_runs 2 0
  ++ Exec 1 os_no_thread :: execs 1 4.

(** After [stale_ready], a session on thread 3, which never handles its
    signal. *)
Definition stale_ready_then_session : list action :=
  stale_ready ++ start_session 3 ++ execs 1 8.

(* ===================================================================== *)
(** * The theorems at concrete inputs                                     *)
(* ===================================================================== *)

(** Both tokens fit into 35 bytes; with 34 the second is left out whole. *)
Example StringifyToHex_two_tokens :
  option_map string_of_list_ascii
    (c_str (run_stores (StringifyToHex true two_frames 35) (repeat "x"%char 35)))
  = Some "00000000000000ff 0000000000400449"%string
  /\
  option_map string_of_list_ascii
    (c_str (run_stores (StringifyToHex false two_frames 34) (repeat "x"%char 34)))
  = Some "00000000000000ff"%string.
Proof. split; vm_compute; reflexivity. Qed.

Example ToHexString_two_frames :
  ToHexString true 16 two_frames [] = Some "00000000000000ff 0000000000400449"%string.
Proof. vm_compute. reflexivity. Qed.

(** The return address 0x400449 of the example at lines 249-263 is looked up
    as 0x400448 and resolves to [main]. *)
Example Symbolize_two_frames :
  Symbolize_traced demo_resolver demo_pointer two_frames
  = (("    @   (unknown)" ++ newline ++ "    @   main" ++ newline)%string,
     [254; 4195400]).
Proof. vm_compute. reflexivity. Qed.

Lemma StringifyToHex_within_and_terminated_witness :
  1 <= 40 /\
  Forall (within 40) (StringifyToHex true two_frames 40) /\
  string_of_list_ascii (hex_text (captured two_frames))
  = "00000000000000ff 0000000000400449"%string.
Proof.
  split; [lia|]. split; [|vm_compute; reflexivity].
  apply (StringifyToHex_within_and_terminated true two_frames 40). lia.
Defined.

(** C2 as stated fails for a destination of no bytes: the terminator is
    stored at offset 0, outside it, and nothing terminated is left in it. *)
Lemma StringifyToHex_size_0_counterexample :
  ~ Forall (within 0) (StringifyToHex true two_frames 0) /\
  c_str (run_stores (StringifyToHex true two_frames 0) []) = None.
Proof.
  split; [|vm_compute; reflexivity].
  intros Hall. inversion Hall as [|w ws Hw _]; subst.
  unfold within in Hw. simpl in Hw. lia.
Qed.

Lemma DumpThreadStack_result_witness :
  fatal at_the_read = None /\
  handler (threads at_the_read 1%positive) = None /\
  dumper (threads at_the_read 1%positive) = DReadReady 2 /\
  result_ready (g_comm at_the_read) = 1 /\
  dumper (threads (demo_run [Exec 1 os_ok; Exec 1 os_ok; Exec 1 os_ok; Exec 1 os_ok]
                     (demo_step (Exec 1 os_ok) at_the_read)) 1%positive)
  = DReturned ("    @   main" ++ newline ++ "    @   (unknown)" ++ newline)%string.
Proof.
  assert (Hf : fatal at_the_read = None) by (vm_compute; reflexivity).
  assert (Hh : handler (threads at_the_read 1%positive) = None)
    by (vm_compute; reflexivity).
  assert (Hd : dumper (threads at_the_read 1%positive) = DReadReady 2)
    by (vm_compute; reflexivity).
  assert (Hr : result_ready (g_comm at_the_read) = 1) by (vm_compute; reflexivity).
  split; [exact Hf|]. split; [exact Hh|]. split; [exact Hd|]. split; [exact Hr|].
  pose proof (DumpThreadStack_result 16 demo_resolver demo_pointer
                (start_session 2 ++ handler_runs 2 0 ++ execs 1 3) 1 2 Hf Hh Hd)
    as W.
  cbv zeta in W.
  destruct W as (_ & _ & W). destruct (W os_ok) as (_ & _ & Wret).
  etransitivity; [exact (proj1 (Wret os_ok os_ok os_ok os_ok))|].
  vm_compute. reflexivity.
Defined.

(** C1 as stated fails on the text: with [result_ready] still 0 at the read
    under the lock, the call returns the sentinel in parentheses. *)
Lemma no_response_text_counterexample :
  dumper (threads at_the_read_late 1%positive) = DReadReady 2 /\
  result_ready (g_comm at_the_read_late) = 0 /\
  dumper (threads (demo_run (execs 1 5) at_the_read_late) 1%positive)
  = DReturned "(thread did not respond: maybe it is blocking signals)" /\
  "(thread did not respond: maybe it is blocking signals)"%string
  <> "thread did not respond: maybe it is blocking signals"%string.
Proof.
  split; [vm_compute; reflexivity|]. split; [vm_compute; reflexivity|].
  split; [vm_compute; reflexivity|]. discriminate.
Qed.

Lemma DumpThreadStack_undelivered_witness :
  fatal at_the_kill = None /\
  handler (threads at_the_kill 1%positive) = None /\
  dumper (threads at_the_kill 1%positive) = DKill 2 /\
  tgkill_result os_no_thread <> 0 /\
  lock (g_comm at_the_kill) = 0 /\
  dumper (threads (demo_run [Exec 1 os_ok; Exec 1 os_ok; Exec 1 os_ok; Exec 1 os_ok]
                     (demo_step (Exec 1 os_no_thread) at_the_kill)) 1%positive)
  = DReturned undelivered_text.
Proof.
  assert (Hf : fatal at_the_kill = None) by (vm_compute; reflexivity).
  assert (Hh : handler (threads at_the_kill 1%positive) = None)
    by (vm_compute; reflexivity).
  assert (Hd : dumper (threads at_the_kill 1%positive) = DKill 2)
    by (vm_compute; reflexivity).
  assert (Hr : tgkill_result os_no_thread <> 0) by (vm_compute; discriminate).
  assert (Hl : lock (g_comm at_the_kill) = 0) by (vm_compute; reflexivity).
  split; [exact Hf|]. split; [exact Hh|]. split; [exact Hd|]. split; [exact Hr|].
  split; [exact Hl|].
  pose proof (DumpThreadStack_undelivered 16 demo_resolver demo_pointer
                (Call 1 2 :: execs 1 6) 1 2 os_no_thread Hf Hh Hd Hr) as W.
  cbv zeta in W. destruct W as (_ & _ & _ & W).
  exact (proj1 (W Hl os_ok os_ok os_ok os_ok)).
Defined.

(** C4 as stated fails on the text: the call whose [tgkill] fails returns
    the sentinel in parentheses. *)
Lemma undelivered_text_counterexample :
  dumper (threads at_the_kill 1%positive) = DKill 2 /\
  tgkill_result os_no_thread <> 0 /\
  dumper (threads (demo_run (Exec 1 os_no_thread :: execs 1 4) at_the_kill)
                  1%positive)
  = DReturned "(unable to deliver signal: process may have exited)" /\
  target_tid (g_comm (demo_run (Exec 1 os_no_thread :: execs 1 4) at_the_kill)) = 0 /\
  "(unable to deliver signal: process may have exited)"%string
  <> "unable to deliver signal: process may have exited"%string.
Proof.
  split; [vm_compute; reflexivity|]. split; [vm_compute; discriminate|].
  split; [vm_compute; reflexivity|]. split; [vm_compute; reflexivity|].
  discriminate.
Qed.

(** C3 as stated fails: the handler of thread 2 has stored
    [result_ready = 1] and still holds the lock; the polling load of thread 1
    sees the result ready and leaves the loop while the lock is held. *)
Lemma publish_outside_lock_counterexample :
  handler (threads published_not_unlocked 2%positive) = Some HUnlock /\
  holds_lock published_not_unlocked (Handler 2) = true /\
  lock (g_comm published_not_unlocked) = 1 /\
  result_ready (g_comm published_not_unlocked) = 1 /\
  dumper (threads published_not_unlocked 1%positive) = DPoll 2 0 /\
  dumper (threads (demo_step (Exec 1 os_ok) published_not_unlocked) 1%positive)
  = DLockC 2 /\
  lock (g_comm (demo_step (Exec 1 os_ok) published_not_unlocked)) = 1.
Proof. repeat (split; [vm_compute; reflexivity|]). vm_compute. reflexivity. Qed.

Lemma mismatched_signal_is_ignored_witness :
  fatal late_signal_checked = None /\
  target_tid (g_comm late_signal_checked) <> 2 /\
  handler (threads late_signal_checked 2%positive) = Some HCheck /\
  handler (threads (demo_step (Exec 2 os_ok) late_signal_checked) 2%positive)
  = Some HUnlock /\
  g_comm (demo_step (Exec 2 os_ok) late_signal_checked)
  = g_comm late_signal_checked.
Proof.
  assert (Hf : fatal late_signal_checked = None) by (vm_compute; reflexivity).
  assert (Ht : target_tid (g_comm late_signal_checked) <> 2)
    by (vm_compute; discriminate).
  assert (Hh : handler (threads late_signal_checked 2%positive) = Some HCheck)
    by (vm_compute; reflexivity).
  split; [exact Hf|]. split; [exact Ht|]. split; [exact Hh|].
  pose proof (proj1 (mismatched_signal_is_ignored 16 demo_resolver demo_pointer
                       late_signal_checked 2 Hf Ht) Hh os_ok os_ok) as W.
  cbv zeta in W. destruct W as (W1 & W2 & _).
  split; [exact W1|exact W2].
Defined.

(** C6 at the failing input: the call that gives up on an undeliverable
    signal returns with [target_tid] reset and [result_ready] still 1, and
    releases the dumper mutex so; the next session, on thread 3 that never
    handles its signal, finds the result ready at its first load and returns
    the old stack of thread 2 instead of timing out. *)
Lemma failed_delivery_leaves_result_ready :
  dumper (threads (demo_run stale_ready demo_boot) 1%positive)
  = DReturned undelivered_text /\
  dumper_thread_lock_ (demo_run stale_ready demo_boot) = false /\
  target_tid (g_comm (demo_run stale_ready demo_boot)) = 0 /\
  result_ready (g_comm (demo_run stale_ready demo_boot)) = 1 /\
  handler (threads (demo_run stale_ready_then_session demo_boot) 3%positive)
  = None /\
  pending (demo_run stale_ready_then_session demo_boot) 3%positive = true /\
  dumper (threads (demo_run stale_ready_then_session demo_boot) 1%positive)
  = DReturned (Symbolize demo_resolver demo_pointer
                 (stack (g_comm (demo_run stale_ready demo_boot)))) /\
  Symbolize demo_resolver demo_pointer
    (stack (g_comm (demo_run stale_ready demo_boot)))
  = ("    @   main" ++ newline ++ "    @   (unknown)" ++ newline)%string.
Proof. repeat (split; [vm_compute; reflexivity|]). vm_compute. reflexivity. Qed.

(** Thread 1 has read the result of thread 2 and done both resets; it is
    about to return. *)
Abbreviation at_the_return :=
  (demo_run (start_session 2 ++ handler_runs 2 0 ++ execs 1 7) demo_boot).

Lemma DumpThreadStack_makes_progress_witness :
  fatal at_the_kill = None /\
  handler (threads at_the_kill 1%positive) = None /\
  (steps_left (dumper (threads at_the_kill 1%positive)) = 0%nat \/
   ((steps_left (dumper (threads (demo_step (Exec 1 os_ok) at_the_kill) 1%positive))
     < steps_left (dumper (threads at_the_kill 1%positive)))%nat /\
    fatal (demo_step (Exec 1 os_ok) at_the_kill) = None) \/
   (waits (dumper (threads at_the_kill 1%positive)) at_the_kill /\
    dumper (threads (demo_step (Exec 1 os_ok) at_the_kill) 1%positive)
    = dumper (threads at_the_kill 1%positive) /\
    g_comm (demo_step (Exec 1 os_ok) at_the_kill) = g_comm at_the_kill) \/
   (exists tid, dumper (threads at_the_kill 1%positive) = DInstall tid /\
                initialized at_the_kill = false /\
                signal_result os_ok <> 0 /\
                fatal (demo_step (Exec 1 os_ok) at_the_kill) = Some InstallFailed)).
Proof.
  assert (Hf : fatal at_the_kill = None) by (vm_compute; reflexivity).
  assert (Hh : handler (threads at_the_kill 1%positive) = None)
    by (vm_compute; reflexivity).
  split; [exact Hf|]. split; [exact Hh|].
  exact (DumpThreadStack_makes_progress 16 demo_resolver demo_pointer
           (Call 1 2 :: execs 1 6) 1 os_ok Hf Hh).
Defined.

Lemma return_path_resets_both_witness :
  past_resets (dumper (threads at_the_return 1%positive)) = true /\
  target_tid (g_comm at_the_return) = 0 /\
  result_ready (g_comm at_the_return) = 0.
Proof.
  assert (Hp : past_resets (dumper (threads at_the_return 1%positive)) = true)
    by (vm_compute; reflexivity).
  split; [exact Hp|].
  exact (return_path_resets_both 16 demo_resolver demo_pointer
           (start_session 2 ++ handler_runs 2 0 ++ execs 1 7) 1 Hp).
Defined.


(* ===================================================================== *)
(** * The further facts at concrete inputs                                *)
(* ===================================================================== *)

(** A parser to run [ListThreads] on: decimal digits only, the value below
    2^32. *)
Definition digit_value (c : ascii) : option Z :=
  let n := Z.of_nat (nat_of_ascii c) in
  if (48 <=? n) && (n <=? 57) then Some (n - 48) else None.

Fixpoint decimal_value (acc : Z) (s : string) : option Z :=
  match s with
  | EmptyString => Some acc
  | String c s' =>
      match digit_value c with
      | Some d => decimal_value (10 * acc + d) s'
      | None => None
      end
  end.

Definition demo_strtou32 (s : string) : option Z :=
  match s with
  | EmptyString => None
  | _ => match decimal_value 0 s with
         | Some v => if v <? 2 ^ 32 then Some v else None
         | None => None
         end
  end.

Definition demo_strerror (errno : Z) : string := "No such file or directory".

(** A task directory with the two dot entries, three threads and a name
    that is no number; the vector holds one id already. *)
Example ListThreads_of_a_task_dir :
  ListThreads demo_strtou32 demo_strerror
    (Some ["."; ".."; "4711"; "4712"; "x1"; "4720"]%string) 0 [1]
  = (OK, [1; 4711; 4712; 4720], ["bad tid found in procfs: x1"%string])
  /\
  ListThreads demo_strtou32 demo_strerror None 2 [1]
  = (IOError "failed to open task dir" "No such file or directory" 2, [1], []).
Proof. split; vm_compute; reflexivity. Qed.

(** Seventy slots in the trace and seventy frames on the call stack: the
    innermost is skipped, and of the other sixty-nine the first sixty are what
    1024 bytes hold. *)
Example GetStackTraceHex_of_a_deep_stack :
  option_map String.length
    (GetStackTraceHex true 70 (map Z.of_nat (seq 1 70)) [])
  = Some (60 * 17 - 1)%nat.
Proof. vm_compute. reflexivity. Qed.

(** With one slot only, [ToHexString] has no room for its one token. *)
Example ToHexString_with_one_slot :
  ToHexString true 1 {| num_frames_ := 1; frames_ := [255] |} [] = Some ""%string.
Proof. vm_compute. reflexivity. Qed.

Lemma StringifyToHex_writes_what_fits_witness :
  1 <= 35 /\
  Z.of_nat (length (repeat "x"%char 35)) = 35 /\
  c_str (run_stores (StringifyToHex true two_frames 35) (repeat "x"%char 35))
  = Some (hex_text (take (tokens_that_fit 35) (captured two_frames))) /\
  tokens_that_fit 35 = 2%nat /\ tokens_that_fit 34 = 1%nat.
Proof.
  assert (H1 : 1 <= 35) by lia.
  assert (H2 : Z.of_nat (length (repeat "x"%char 35)) = 35) by reflexivity.
  split; [exact H1|]. split; [exact H2|]. split; [|split; reflexivity].
  exact (proj1 (StringifyToHex_writes_what_fits true two_frames 35 H1
                  (repeat "x"%char 35) H2)).
Defined.

Lemma StringifyToHex_truncates_to_a_prefix_witness :
  1 <= 34 /\ 34 <= 35 /\
  exists text1 more rest,
    c_str (run_stores (StringifyToHex true two_frames 34) (repeat "x"%char 34))
    = Some text1 /\
    c_str (run_stores (StringifyToHex true two_frames 35) (repeat "y"%char 35))
    = Some (text1 ++ more) /\
    hex_text (captured two_frames) = text1 ++ more ++ rest.
Proof.
  assert (H1 : 1 <= 34) by lia. assert (H2 : 34 <= 35) by lia.
  split; [exact H1|]. split; [exact H2|].
  exact (StringifyToHex_truncates_to_a_prefix true two_frames 34 35 H1 H2
           (repeat "x"%char 34) (repeat "y"%char 35) eq_refl eq_refl).
Defined.

(** Thread 1 dumps thread 2, which handles the signal at once. *)
Lemma DumpThreadStack_of_responsive_thread_witness :
  quiet demo_boot /\
  dumper (threads (demo_run (Call 1 (Z.pos 2) :: solo 1 os_ok 7
                             ++ Deliver 2 :: solo 2 os_ok 5 ++ solo 1 os_ok 8)
                            demo_boot) 1%positive)
  = DReturned ("    @   main" ++ newline ++ "    @   (unknown)" ++ newline)%string.
Proof.
  assert (Hq : quiet demo_boot) by (unfold quiet; cbn; auto).
  split; [exact Hq|].
  pose proof (DumpThreadStack_of_responsive_thread 16 demo_resolver demo_pointer
                demo_boot 1 2 os_ok Hq eq_refl eq_refl eq_refl eq_refl eq_refl)
    as W.
  cbv zeta in W. destruct W as [W _].
  etransitivity; [exact W|]. vm_compute. reflexivity.
Defined.

(** Thread 1 dumps thread 2, which never handles the signal. *)
Lemma DumpThreadStack_of_silent_thread_witness :
  idle demo_boot /\
  dumper (threads (demo_run (Call 1 2 :: solo 1 os_ok (7 + 2 * 100)) demo_boot)
                  1%positive)
  = DPoll 2 100 /\
  dumper (threads (demo_run (Call 1 2 :: solo 1 os_ok (8 + 2 * 99)) demo_boot)
                  1%positive)
  = DSleep 2 100 /\
  dumper (threads (demo_run (Call 1 2 :: solo 1 os_ok 215) demo_boot) 1%positive)
  = DReturned "(thread did not respond: maybe it is blocking signals)" /\
  pending (demo_run (Call 1 2 :: solo 1 os_ok 215) demo_boot) 2%positive = true.
Proof.
  assert (Hi : idle demo_boot) by (unfold idle; cbn; auto).
  split; [exact Hi|].
  pose proof (DumpThreadStack_of_silent_thread 16 demo_resolver demo_pointer
                demo_boot 1 2 os_ok Hi eq_refl eq_refl eq_refl eq_refl)
    as W.
  destruct W as [W _]. specialize (W eq_refl). cbv zeta in W.
  destruct W as (Wload & Wsleep & W1 & _ & _ & _ & W2).
  split; [exact (Wload 100%nat ltac:(lia))|].
  split; [exact (Wsleep 99%nat ltac:(lia))|].
  split; [exact W1|]. exact (W2 2%positive eq_refl).
Defined.

(** Thread 1 dumps thread 2, which is gone. *)
Lemma DumpThreadStack_of_missing_thread_witness :
  idle demo_boot /\ tgkill_result os_no_thread <> 0 /\
  dumper (threads (demo_run (Call 1 2 :: solo 1 os_no_thread 11) demo_boot)
                  1%positive)
  = DReturned "(unable to deliver signal: process may have exited)" /\
  g_comm (demo_run (Call 1 2 :: solo 1 os_no_thread 11) demo_boot)
  = g_comm demo_boot.
Proof.
  assert (Hi : idle demo_boot) by (unfold idle; cbn; auto).
  assert (Hk : tgkill_result os_no_thread <> 0) by (cbn; discriminate).
  split; [exact Hi|]. split; [exact Hk|].
  pose proof (DumpThreadStack_of_missing_thread 16 demo_resolver demo_pointer
                demo_boot 1 2 os_no_thread Hi eq_refl eq_refl Hk eq_refl)
    as W.
  cbv zeta in W. destruct W as (W1 & _ & _ & W2 & _).
  split; [exact W1|exact W2].
Defined.

(** The exit of lines 130-134 from a process that is idle with
    [result_ready] left at 1: it is still 1 afterwards. *)
Example DumpThreadStack_of_missing_thread_keeps_result_ready :
  idle (demo_run stale_ready demo_boot) /\
  result_ready (g_comm (demo_run stale_ready demo_boot)) = 1 /\
  result_ready
    (g_comm (demo_run (stale_ready ++ Call 1 3 :: solo 1 os_no_thread 11)
                      demo_boot)) = 1.
Proof.
  split; [|split; vm_compute; reflexivity].
  unfold idle. repeat (split; [vm_compute; reflexivity|]). vm_compute. reflexivity.
Qed.

(** Thread 1 is at the check of line 122, inside the first lock block, when
    a SIGUSR1 sent from elsewhere interrupts it. *)
Abbreviation interrupted_in_lock_block :=
  (demo_run (Call 1 2 :: execs 1 3 ++ [Raise 1; Deliver 1]) demo_boot).

Lemma handler_on_lock_holder_never_returns_witness :
  handler (threads interrupted_in_lock_block 1%positive) = Some HLock /\
  dumper_locks (dumper (threads interrupted_in_lock_block 1%positive)) = true /\
  handler (threads (demo_run (execs 1 50 ++ Call 3 1 :: execs 3 50)
                             interrupted_in_lock_block) 1%positive)
  = Some HLock /\
  lock (g_comm (demo_run (execs 1 50 ++ Call 3 1 :: execs 3 50)
                         interrupted_in_lock_block)) = 1.
Proof.
  assert (Hh : handler (threads interrupted_in_lock_block 1%positive) = Some HLock)
    by (vm_compute; reflexivity).
  assert (Hd : dumper_locks (dumper (threads interrupted_in_lock_block 1%positive))
               = true) by (vm_compute; reflexivity).
  split; [exact Hh|]. split; [exact Hd|].
  pose proof (handler_on_lock_holder_never_returns 16 demo_resolver demo_pointer
                (Call 1 2 :: execs 1 3 ++ [Raise 1; Deliver 1]) 1 Hh Hd
                (execs 1 50 ++ Call 3 1 :: execs 3 50)) as W.
  cbv zeta in W. destruct W as (W1 & _ & W2 & _).
  split; [exact W1|exact W2].
Defined.

(** Thread 1 has dumped thread 2 and is back in its caller. *)
Abbreviation back_in_the_caller :=
  (demo_run (start_session 2 ++ handler_runs 2 0 ++ execs 1 8) demo_boot).

Lemma DumpThreadStack_returns_one_of_three_witness :
  dumper (threads back_in_the_caller 1%positive)
  = DReturned ("    @   main" ++ newline ++ "    @   (unknown)" ++ newline)%string /\
  exists x callstack,
    In (x, callstack)
       (collections 16 demo_resolver demo_pointer
          (start_session 2 ++ handler_runs 2 0 ++ execs 1 8) demo_boot) /\
    ("    @   main" ++ newline ++ "    @   (unknown)" ++ newline)%string
    = Symbolize demo_resolver demo_pointer
        (Collect 16 callstack 2 two_frames).
Proof.
  assert (Hd : dumper (threads back_in_the_caller 1%positive)
               = DReturned ("    @   main" ++ newline ++ "    @   (unknown)"
                            ++ newline)%string) by (vm_compute; reflexivity).
  split; [exact Hd|].
  destruct (DumpThreadStack_returns_one_of_three 16 demo_resolver demo_pointer
              (start_session 2 ++ handler_runs 2 0 ++ execs 1 8) 1 _ Hd)
    as [E|[E|(x & callstack & Hin & Hs & _)]].
  - vm_compute in E. discriminate E.
  - vm_compute in E. discriminate E.
  - exists x, callstack. split; [exact Hin|apply Hs].
Defined.

(** The one execution of line 98 in that run: on thread 2, from the call
    stack the walker saw there. *)
Example collections_of_a_session :
  collections 16 demo_resolver demo_pointer
    (start_session 2 ++ handler_runs 2 0 ++ execs 1 8) demo_boot
  = [(2%positive, callstack os_ok)].
Proof. vm_compute. reflexivity. Qed.

(** A session on thread 1 by thread 2 timed out; thread 1 then calls
    [DumpThreadStack(3)] itself and is at the check of line 122, inside the
    first lock block, when the late signal of the first session reaches it. *)
Abbreviation late_signal_in_lock_block :=
  (demo_run ((Call 2 1 :: execs 2 215) ++ Call 1 3 :: execs 1 3 ++ [Deliver 1])
            demo_boot).

